(** * vesc_can_driver: command limits and the driver state machine

    A shallow embedding of [vesc_driver/src/vesc_can_driver.cpp]:
    the per-channel [CommandLimit] (its constructor and [clip]), the six
    command callbacks, the periodic [timerCallback] and the telemetry
    callback [VescStateUpdatedCallback].

    A C++ [double] is an IEEE 754 binary64 value, embedded as a
    [spec_float] of precision 53 and maximal exponent 1024, so that
    comparisons with NaN and signed zeros behave as they do in the
    compiled program.  Log statements do not influence any returned value
    or any call on the VESC interface and are left out. *)

From Stdlib Require Import ZArith Bool List Lia.
From Stdlib Require Import Floats.SpecFloat.
From stdpp Require Import gmap strings.
Import ListNotations.

Local Open Scope Z_scope.

(** ** binary64 arithmetic *)

Module Double.

Definition prec : Z := 53.
Definition emax : Z := 1024.

Definition double : Type := spec_float.

(** [x < y], [x > y], [x <= y] and [x == y] on doubles. *)
Definition ltb (x y : double) : bool := SFltb x y.
Definition gtb (x y : double) : bool := SFltb y x.
Definition leb (x y : double) : bool := SFleb x y.
Definition eqb (x y : double) : bool := SFeqb x y.

Definition mul (x y : double) : double := SFmul prec emax x y.
Definition div (x y : double) : double := SFdiv prec emax x y.

Definition is_nan (x : double) : bool :=
  match x with S754_nan => true | _ => false end.

(** The double nearest to an integer, and to a quotient of integers (a
    decimal literal such as [0.3] denotes the double nearest to 3/10,
    which is what a correctly rounded division returns). *)
Definition of_Z (z : Z) : double := binary_normalize prec emax z 0 false.
Definition of_ratio (n d : Z) : double := div (of_Z n) (of_Z d).

Definition zero : double := S754_zero false.
Definition neg_zero : double := S754_zero true.
Definition nan : double := S754_nan.
Definition infinity : double := S754_infinity false.
Definition neg_infinity : double := S754_infinity true.

(** [M_PI] of <cmath>: 0x1.921fb54442d18p+1. *)
Definition M_PI : double := S754_finite false 7074237752028440 (-51).

End Double.

Import Double.

Declare Scope double_scope.
Delimit Scope double_scope with double.
Infix "<?" := ltb : double_scope.
Infix ">?" := gtb : double_scope.
Infix "<=?" := leb : double_scope.
Infix "==?" := eqb (at level 70) : double_scope.
Infix "*" := mul : double_scope.
Infix "/" := div : double_scope.

(** ** Node parameters (rclcpp)

    [rclcpp::ParameterValue] is a tagged value.  [get<double>()] throws
    unless the tag is [PARAMETER_DOUBLE]; a thrown exception is [None]. *)

Inductive ParameterType :=
  | PARAMETER_NOT_SET
  | PARAMETER_BOOL
  | PARAMETER_INTEGER
  | PARAMETER_DOUBLE
  | PARAMETER_STRING.

Inductive ParameterValue :=
  | PV_not_set
  | PV_bool (b : bool)
  | PV_integer (i : Z)
  | PV_double (d : double)
  | PV_string (s : string).

Definition get_type (p : ParameterValue) : ParameterType :=
  match p with
  | PV_not_set => PARAMETER_NOT_SET
  | PV_bool _ => PARAMETER_BOOL
  | PV_integer _ => PARAMETER_INTEGER
  | PV_double _ => PARAMETER_DOUBLE
  | PV_string _ => PARAMETER_STRING
  end.

Definition get_double (p : ParameterValue) : option double :=
  match p with
  | PV_double d => Some d
  | _ => None
  end.

Definition is_set (p : ParameterValue) : bool :=
  match get_type p with
  | PARAMETER_NOT_SET => false
  | _ => true
  end.

(** A parameter override (command line, launch file, YAML file) always
    carries a value of some type. *)
Inductive OverrideValue :=
  | OV_bool (b : bool)
  | OV_integer (i : Z)
  | OV_double (d : double)
  | OV_string (s : string).

Definition override_value (o : OverrideValue) : ParameterValue :=
  match o with
  | OV_bool b => PV_bool b
  | OV_integer i => PV_integer i
  | OV_double d => PV_double d
  | OV_string s => PV_string s
  end.

(** The node, as far as the driver reads it: the parameter overrides the
    user configured, by parameter name.  [declare_parameter name default]
    returns the override when there is one and the default otherwise. *)
Definition declare_parameter
    (overrides : gmap string OverrideValue) (name : string)
    (default : ParameterValue) : ParameterValue :=
  match overrides !! name with
  | Some o => override_value o
  | None => default
  end.

(** ** CommandLimit *)

Module CommandLimit.

Record t := Build {
  name : string;
  lower : option double;
  upper : option double
}.

(** Lines 280-296: the lower bound from [<name>_min]. *)
Definition resolve_lower
    (min_lower max_upper : option double) (param_min : ParameterValue)
    : option (option double) :=
  if is_set param_min then
    below ← match min_lower with
            | Some lo => x ← get_double param_min; Some (x <? lo)%double
            | None => Some false
            end;
    if (below : bool) then Some min_lower
    else
      above ← match max_upper with
              | Some hi => x ← get_double param_min; Some (x >? hi)%double
              | None => Some false
              end;
      if (above : bool) then Some max_upper
      else x ← get_double param_min; Some (Some x)
  else Some min_lower.

(** Lines 302-318: the upper bound from [<name>_max]. *)
Definition resolve_upper
    (min_lower max_upper : option double) (param_max : ParameterValue)
    : option (option double) :=
  if is_set param_max then
    below ← match min_lower with
            | Some lo => x ← get_double param_max; Some (x <? lo)%double
            | None => Some false
            end;
    if (below : bool) then Some min_lower
    else
      above ← match max_upper with
              | Some hi => x ← get_double param_max; Some (x >? hi)%double
              | None => Some false
              end;
      if (above : bool) then Some max_upper
      else x ← get_double param_max; Some (Some x)
  else Some max_upper.

(** Lines 320-328: [if (upper && lower && *lower > *upper)] swap. *)
Definition swap_inverted (lo hi : option double)
    : option double * option double :=
  match hi, lo with
  | Some u, Some l => if (l >? u)%double then (Some u, Some l) else (lo, hi)
  | _, _ => (lo, hi)
  end.

(** Lines 277-278 and 299-300: the two parameters of the channel, both
    declared with the default value 0.0. *)
Definition param_min (node : gmap string OverrideValue) (str : string)
    : ParameterValue :=
  declare_parameter node (str +:+ "_min") (PV_double zero).

Definition param_max (node : gmap string OverrideValue) (str : string)
    : ParameterValue :=
  declare_parameter node (str +:+ "_max") (PV_double zero).

(** The constructor.  [None] is an exception leaving the constructor. *)
Definition new
    (node : gmap string OverrideValue) (str : string)
    (min_lower max_upper : option double) : option t :=
  lo ← resolve_lower min_lower max_upper (param_min node str);
  hi ← resolve_upper min_lower max_upper (param_max node str);
  let '(lo', hi') := swap_inverted lo hi in
  Some {| name := str; lower := lo'; upper := hi' |}.

(** The conditions of bound resolution: a feasible lower bound exists
    and the value is below it; a feasible upper bound exists and the
    value exceeds it. *)
Definition below_feasible (min_lower : option double) (x : double) : bool :=
  match min_lower with
  | Some lo => (x <? lo)%double
  | None => false
  end.

Definition above_feasible (max_upper : option double) (x : double) : bool :=
  match max_upper with
  | Some hi => (x >? hi)%double
  | None => false
  end.

(** Lines 348-365: [if (lower && value < lower) return *lower;
    if (upper && value > upper) return *upper; return value;]. *)
Definition clip (self : t) (value : double) : double :=
  let above :=
    match upper self with
    | Some hi => if (value >? hi)%double then hi else value
    | None => value
    end in
  match lower self with
  | Some lo => if (value <? lo)%double then lo else above
  | None => above
  end.

End CommandLimit.

(** ** The driver *)

(** Modelled from the spec: the enumeration [driver_mode_t] is declared in
    the header [vesc_driver/vesc_can_driver.hpp], which is not part of the
    sources at hand.  It has the two enumerators [MODE_INITIALIZING] and
    [MODE_OPERATING], in this order, hence the values 0 and 1. *)
Inductive driver_mode_t := MODE_INITIALIZING | MODE_OPERATING.

Definition driver_mode_value (m : driver_mode_t) : Z :=
  match m with
  | MODE_INITIALIZING => 0
  | MODE_OPERATING => 1
  end.

(** Contextual conversion of an enumerator to [bool] in a condition. *)
Definition to_bool (m : driver_mode_t) : bool :=
  negb (driver_mode_value m =? 0).

#[global] Instance driver_mode_eq_dec : EqDecision driver_mode_t.
Proof. solve_decision. Defined.

(** The command calls of the VESC interface [vesc_]. *)
Inductive VescCall :=
  | SetDutyCycle (v : double)
  | SetCurrent (v : double)
  | SetBrake (v : double)
  | SetSpeed (v : double)
  | SetPosition (v : double)
  | SetServo (v : double).

(** The fields of [robosw::StampedVescState::state] that the driver reads,
    and those of [vesc_msgs::msg::VescState] that it writes.  Both
    declarations live outside this file; measured quantities are doubles,
    counters and codes are integers. *)
Record RoboswVescState := {
  in_voltage_input : double;
  in_current_motor : double;
  in_current_input : double;
  in_duty_cycle : double;
  in_speed : double;
  in_charge_drawn : double;
  in_charge_regen : double;
  in_energy_drawn : double;
  in_energy_regen : double;
  in_displacement : Z;
  in_distance_traveled : Z;
  in_fault_code : Z;
  in_temperature_pcb : double
}.

Record VescState := {
  voltage_input : double;
  current_motor : double;
  current_input : double;
  avg_id : double;
  avg_iq : double;
  duty_cycle : double;
  speed : double;
  charge_drawn : double;
  charge_regen : double;
  energy_drawn : double;
  energy_regen : double;
  displacement : Z;
  distance_traveled : Z;
  fault_code : Z;
  pid_pos_now : double;
  controller_id : Z;
  ntc_temp_mos1 : double;
  ntc_temp_mos2 : double;
  ntc_temp_mos3 : double;
  avg_vd : double;
  avg_vq : double
}.

Record VescStateStamped := {
  stamp : Z;
  state : VescState
}.

(** The driver object.  [vesc_] is the sequence of command calls made on
    the VESC interface so far, [state_pub_] and [servo_sensor_pub_] are
    the messages published so far; all three oldest first. *)
Record VescCanDriver := {
  duty_cycle_limit_ : CommandLimit.t;
  current_limit_ : CommandLimit.t;
  brake_limit_ : CommandLimit.t;
  speed_limit_ : CommandLimit.t;
  position_limit_ : CommandLimit.t;
  servo_limit_ : CommandLimit.t;
  driver_mode_ : driver_mode_t;
  fw_version_major_ : Z;
  fw_version_minor_ : Z;
  controller_id_ : Z;
  state_msg_received_ : bool;
  vesc_ : list VescCall;
  state_pub_ : list VescStateStamped;
  servo_sensor_pub_ : list double
}.

(** *** Actions on the driver object

    Member functions read and update the object: a small state monad. *)

Definition Action (A : Type) : Type := VescCanDriver -> A * VescCanDriver.

#[global] Instance Action_ret : MRet Action := λ A x d, (x, d).
#[global] Instance Action_bind : MBind Action :=
  λ A B f m d, let '(x, d') := m d in f x d'.

Definition exec {A} (m : Action A) (d : VescCanDriver) : VescCanDriver :=
  snd (m d).

Definition read {A} (f : VescCanDriver -> A) : Action A := λ d, (f d, d).

Definition set_driver_mode (m : driver_mode_t) (d : VescCanDriver)
    : VescCanDriver :=
  {| duty_cycle_limit_ := duty_cycle_limit_ d;
     current_limit_ := current_limit_ d;
     brake_limit_ := brake_limit_ d;
     speed_limit_ := speed_limit_ d;
     position_limit_ := position_limit_ d;
     servo_limit_ := servo_limit_ d;
     driver_mode_ := m;
     fw_version_major_ := fw_version_major_ d;
     fw_version_minor_ := fw_version_minor_ d;
     controller_id_ := controller_id_ d;
     state_msg_received_ := state_msg_received_ d;
     vesc_ := vesc_ d;
     state_pub_ := state_pub_ d;
     servo_sensor_pub_ := servo_sensor_pub_ d |}.

Definition set_state_msg_received (b : bool) (d : VescCanDriver)
    : VescCanDriver :=
  {| duty_cycle_limit_ := duty_cycle_limit_ d;
     current_limit_ := current_limit_ d;
     brake_limit_ := brake_limit_ d;
     speed_limit_ := speed_limit_ d;
     position_limit_ := position_limit_ d;
     servo_limit_ := servo_limit_ d;
     driver_mode_ := driver_mode_ d;
     fw_version_major_ := fw_version_major_ d;
     fw_version_minor_ := fw_version_minor_ d;
     controller_id_ := controller_id_ d;
     state_msg_received_ := b;
     vesc_ := vesc_ d;
     state_pub_ := state_pub_ d;
     servo_sensor_pub_ := servo_sensor_pub_ d |}.

Definition add_vesc_call (c : VescCall) (d : VescCanDriver) : VescCanDriver :=
  {| duty_cycle_limit_ := duty_cycle_limit_ d;
     current_limit_ := current_limit_ d;
     brake_limit_ := brake_limit_ d;
     speed_limit_ := speed_limit_ d;
     position_limit_ := position_limit_ d;
     servo_limit_ := servo_limit_ d;
     driver_mode_ := driver_mode_ d;
     fw_version_major_ := fw_version_major_ d;
     fw_version_minor_ := fw_version_minor_ d;
     controller_id_ := controller_id_ d;
     state_msg_received_ := state_msg_received_ d;
     vesc_ := vesc_ d ++ [c];
     state_pub_ := state_pub_ d;
     servo_sensor_pub_ := servo_sensor_pub_ d |}.

Definition add_state_pub (m : VescStateStamped) (d : VescCanDriver)
    : VescCanDriver :=
  {| duty_cycle_limit_ := duty_cycle_limit_ d;
     current_limit_ := current_limit_ d;
     brake_limit_ := brake_limit_ d;
     speed_limit_ := speed_limit_ d;
     position_limit_ := position_limit_ d;
     servo_limit_ := servo_limit_ d;
     driver_mode_ := driver_mode_ d;
     fw_version_major_ := fw_version_major_ d;
     fw_version_minor_ := fw_version_minor_ d;
     controller_id_ := controller_id_ d;
     state_msg_received_ := state_msg_received_ d;
     vesc_ := vesc_ d;
     state_pub_ := state_pub_ d ++ [m];
     servo_sensor_pub_ := servo_sensor_pub_ d |}.

Definition add_servo_sensor_pub (v : double) (d : VescCanDriver)
    : VescCanDriver :=
  {| duty_cycle_limit_ := duty_cycle_limit_ d;
     current_limit_ := current_limit_ d;
     brake_limit_ := brake_limit_ d;
     speed_limit_ := speed_limit_ d;
     position_limit_ := position_limit_ d;
     servo_limit_ := servo_limit_ d;
     driver_mode_ := driver_mode_ d;
     fw_version_major_ := fw_version_major_ d;
     fw_version_minor_ := fw_version_minor_ d;
     controller_id_ := controller_id_ d;
     state_msg_received_ := state_msg_received_ d;
     vesc_ := vesc_ d;
     state_pub_ := state_pub_ d;
     servo_sensor_pub_ := servo_sensor_pub_ d ++ [v] |}.

Definition modify (f : VescCanDriver -> VescCanDriver) : Action unit :=
  λ d, (tt, f d).

(** The expression [driver_mode_ = m]: an assignment, whose value is the
    value assigned. *)
Definition assign_driver_mode (m : driver_mode_t) : Action driver_mode_t :=
  λ d, (m, set_driver_mode m d).

(** *** Callbacks *)

(** Lines 125-149.  The third branch, [assert(false)], is for a mode that
    is neither of the two enumerators; [driver_mode_t] has no such value. *)
Definition timerCallback : Action unit :=
  mode ← read driver_mode_;
  if decide (mode = MODE_INITIALIZING) then
    received ← read state_msg_received_;
    if (received : bool) then modify (set_driver_mode MODE_OPERATING)
    else mret tt
  else if decide (mode = MODE_OPERATING) then mret tt
  else mret tt.

(** Lines 151-185; [now] is the value of [now()]. *)
Definition VescStateUpdatedCallback (now : Z) (msg : RoboswVescState)
    : Action unit :=
  received ← read state_msg_received_;
  (if negb received then modify (set_state_msg_received true) else mret tt);;
  modify (add_state_pub
    {| stamp := now;
       state :=
         {| voltage_input := in_voltage_input msg;
            current_motor := in_current_motor msg;
            current_input := in_current_input msg;
            avg_id := zero;
            avg_iq := zero;
            duty_cycle := in_duty_cycle msg;
            speed := in_speed msg;
            charge_drawn := in_charge_drawn msg;
            charge_regen := in_charge_regen msg;
            energy_drawn := in_energy_drawn msg;
            energy_regen := in_energy_regen msg;
            displacement := in_displacement msg;
            distance_traveled := in_distance_traveled msg;
            fault_code := in_fault_code msg;
            pid_pos_now := zero;
            controller_id := 0x68;
            ntc_temp_mos1 := in_temperature_pcb msg;
            ntc_temp_mos2 := in_temperature_pcb msg;
            ntc_temp_mos3 := in_temperature_pcb msg;
            avg_vd := zero;
            avg_vq := zero |} |}).

(** Lines 192-197: [if (driver_mode_ = MODE_OPERATING)]. *)
Definition dutyCycleCallback (data : double) : Action unit :=
  cond ← assign_driver_mode MODE_OPERATING;
  if to_bool cond then
    limit ← read duty_cycle_limit_;
    modify (add_vesc_call (SetDutyCycle (CommandLimit.clip limit data)))
  else mret tt.

(** Lines 204-209. *)
Definition currentCallback (data : double) : Action unit :=
  cond ← assign_driver_mode MODE_OPERATING;
  if to_bool cond then
    limit ← read current_limit_;
    modify (add_vesc_call (SetCurrent (CommandLimit.clip limit data)))
  else mret tt.

(** Lines 216-221. *)
Definition brakeCallback (data : double) : Action unit :=
  cond ← assign_driver_mode MODE_OPERATING;
  if to_bool cond then
    limit ← read brake_limit_;
    modify (add_vesc_call (SetBrake (CommandLimit.clip limit data)))
  else mret tt.

(** Lines 229-235. *)
Definition speedCallback (data : double) : Action unit :=
  cond ← assign_driver_mode MODE_OPERATING;
  if to_bool cond then
    limit ← read speed_limit_;
    modify (add_vesc_call (SetSpeed (CommandLimit.clip limit data)))
  else mret tt.

(** Lines 241-248: [clip(data) * 180.0 / M_PI]. *)
Definition positionCallback (data : double) : Action unit :=
  cond ← assign_driver_mode MODE_OPERATING;
  if to_bool cond then
    limit ← read position_limit_;
    let position_deg := (CommandLimit.clip limit data * of_Z 180 / M_PI)%double in
    modify (add_vesc_call (SetPosition position_deg))
  else mret tt.

(** Lines 253-265. *)
Definition servoCallback (data : double) : Action unit :=
  cond ← assign_driver_mode MODE_OPERATING;
  if to_bool cond then
    limit ← read servo_limit_;
    let servo_clipped := CommandLimit.clip limit data in
    modify (add_vesc_call (SetServo servo_clipped));;
    modify (add_servo_sensor_pub servo_clipped)
  else mret tt.

(** *** Construction (lines 52-110) *)

Definition get_string (p : ParameterValue) : option string :=
  match p with
  | PV_string s => Some s
  | _ => None
  end.

(** [get<uint8_t>()] of an integer parameter: the 64-bit value converted
    to [uint8_t]. *)
Definition get_uint8 (p : ParameterValue) : option Z :=
  match p with
  | PV_integer i => Some (i mod 256)
  | _ => None
  end.

(** The outcome of the constructor when no exception leaves it: the driver
    runs, or [Connect] failed and [rclcpp::shutdown()] was called before
    the timer was created. *)
Inductive Startup :=
  | Running (d : VescCanDriver)
  | Shutdown.

(** Modelled from the spec: [state_msg_received_] has no initialiser in the
    constructor; its declaration, with its initial value, is in the header
    that is not part of the sources at hand.  The latch starts unset.

    [connect_ok] tells whether [vesc_.Connect(port, controller_id_)]
    returns normally. *)
Definition VescCanDriver_new
    (node : gmap string OverrideValue) (connect_ok : string -> Z -> bool)
    : option Startup :=
  duty ← CommandLimit.new node "duty_cycle" (Some (of_Z (-1))) (Some (of_Z 1));
  current ← CommandLimit.new node "current" None None;
  brake ← CommandLimit.new node "brake" None None;
  speed ← CommandLimit.new node "speed" None None;
  position ← CommandLimit.new node "position" None None;
  servo ← CommandLimit.new node "servo" (Some (of_Z 0)) (Some (of_Z 1));
  port ← get_string (declare_parameter node "port" (PV_string "can0"));
  id ← get_uint8 (declare_parameter node "vesc_id" (PV_integer 0x68));
  if connect_ok port id then
    Some (Running
      {| duty_cycle_limit_ := duty;
         current_limit_ := current;
         brake_limit_ := brake;
         speed_limit_ := speed;
         position_limit_ := position;
         servo_limit_ := servo;
         driver_mode_ := MODE_INITIALIZING;
         fw_version_major_ := -1;
         fw_version_minor_ := -1;
         controller_id_ := id;
         state_msg_received_ := false;
         vesc_ := [];
         state_pub_ := [];
         servo_sensor_pub_ := [] |})
  else Some Shutdown.

(** *** Command channels and the executor

    The six subscriptions of lines 82-95 bind each command topic to its
    callback; the timer and the VESC interface invoke the other two. *)

Inductive Channel :=
  | ChDutyCycle | ChCurrent | ChBrake | ChSpeed | ChPosition | ChServo.

Definition commandCallback (ch : Channel) (data : double) : Action unit :=
  match ch with
  | ChDutyCycle => dutyCycleCallback data
  | ChCurrent => currentCallback data
  | ChBrake => brakeCallback data
  | ChSpeed => speedCallback data
  | ChPosition => positionCallback data
  | ChServo => servoCallback data
  end.

Definition limit_of (ch : Channel) (d : VescCanDriver) : CommandLimit.t :=
  match ch with
  | ChDutyCycle => duty_cycle_limit_ d
  | ChCurrent => current_limit_ d
  | ChBrake => brake_limit_ d
  | ChSpeed => speed_limit_ d
  | ChPosition => position_limit_ d
  | ChServo => servo_limit_ d
  end.

Inductive Event :=
  | EvTimer
  | EvCommand (ch : Channel) (data : double)
  | EvState (now : Z) (msg : RoboswVescState).

Definition dispatch (e : Event) : Action unit :=
  match e with
  | EvTimer => timerCallback
  | EvCommand ch data => commandCallback ch data
  | EvState now msg => VescStateUpdatedCallback now msg
  end.

Definition run (es : list Event) (d : VescCanDriver) : VescCanDriver :=
  fold_left (λ d e, exec (dispatch e) d) es d.

Definition is_state_event (e : Event) : bool :=
  match e with
  | EvState _ _ => true
  | _ => false
  end.

(** The call that a command reaches the VESC interface with once it has
    passed the limit of its channel. *)
Definition vesc_call_of (ch : Channel) (clipped : double) : VescCall :=
  match ch with
  | ChDutyCycle => SetDutyCycle clipped
  | ChCurrent => SetCurrent clipped
  | ChBrake => SetBrake clipped
  | ChSpeed => SetSpeed clipped
  | ChPosition => SetPosition (clipped * of_Z 180 / M_PI)%double
  | ChServo => SetServo clipped
  end.

Definition always_connects : string -> Z -> bool := λ _ _, true.

(** The driver as the constructor leaves it when no parameter is
    overridden. *)
Definition unconfigured_limit (str : string) : CommandLimit.t :=
  {| CommandLimit.name := str;
     CommandLimit.lower := Some zero;
     CommandLimit.upper := Some zero |}.

Definition unconfigured_driver : VescCanDriver :=
  {| duty_cycle_limit_ := unconfigured_limit "duty_cycle";
     current_limit_ := unconfigured_limit "current";
     brake_limit_ := unconfigured_limit "brake";
     speed_limit_ := unconfigured_limit "speed";
     position_limit_ := unconfigured_limit "position";
     servo_limit_ := unconfigured_limit "servo";
     driver_mode_ := MODE_INITIALIZING;
     fw_version_major_ := -1;
     fw_version_minor_ := -1;
     controller_id_ := 0x68;
     state_msg_received_ := false;
     vesc_ := [];
     state_pub_ := [];
     servo_sensor_pub_ := [] |}.

(** A state message, for the examples. *)
Definition sample_state : RoboswVescState :=
  {| in_voltage_input := of_Z 24;
     in_current_motor := of_ratio 3 2;
     in_current_input := of_ratio 1 2;
     in_duty_cycle := of_ratio 1 10;
     in_speed := of_Z 1200;
     in_charge_drawn := zero;
     in_charge_regen := zero;
     in_energy_drawn := zero;
     in_energy_regen := zero;
     in_displacement := 10;
     in_distance_traveled := 10;
     in_fault_code := 0;
     in_temperature_pcb := of_Z 35 |}.

(** The limit of the duty cycle channel when no override is configured,
    an inverted pair of overrides for the servo channel, and overrides
    that leave the position channel unbounded. *)
Definition duty_cycle_unconfigured : CommandLimit.t :=
  unconfigured_limit "duty_cycle".

Definition servo_inverted : gmap string OverrideValue :=
  {[ "servo_min" := OV_double (of_ratio 8 10);
     "servo_max" := OV_double (of_ratio 2 10) ]}.

Definition position_unbounded : gmap string OverrideValue :=
  {[ "position_min" := OV_double neg_infinity;
     "position_max" := OV_double infinity ]}.

(** An override that [get<double>()] accepts, or none. *)
Definition double_or_absent (o : option OverrideValue) : Prop :=
  match o with
  | Some (OV_double _) | None => True
  | _ => False
  end.

(** ** Traces of a run

    The commands and the state messages among the events of a run, the
    servo values among the calls made on the VESC interface, and the value
    a call carries. *)
Definition commands_of (es : list Event) : list (Channel * double) :=
  flat_map (λ e, match e with EvCommand ch v => [(ch, v)] | _ => [] end) es.

Definition state_events_of (es : list Event) : list (Z * RoboswVescState) :=
  flat_map (λ e, match e with EvState now msg => [(now, msg)] | _ => [] end)
    es.

Definition servo_values (calls : list VescCall) : list double :=
  flat_map (λ c, match c with SetServo v => [v] | _ => [] end) calls.

Definition call_value (c : VescCall) : double :=
  match c with
  | SetDutyCycle v | SetCurrent v | SetBrake v
  | SetSpeed v | SetPosition v | SetServo v => v
  end.

Definition call_channel (c : VescCall) : Channel :=
  match c with
  | SetDutyCycle _ => ChDutyCycle
  | SetCurrent _ => ChCurrent
  | SetBrake _ => ChBrake
  | SetSpeed _ => ChSpeed
  | SetPosition _ => ChPosition
  | SetServo _ => ChServo
  end.

(** The call a command of the run ends in, given the limits of the
    driver. *)
Definition forwarded (d : VescCanDriver) (c : Channel * double) : VescCall :=
  vesc_call_of (fst c) (CommandLimit.clip (limit_of (fst c) d) (snd c)).

(** [lo <= v <= hi]. *)
Definition within (lo hi v : double) : bool :=
  (lo <=? v)%double && (v <=? hi)%double.

(** The name of a channel, as the constructor passes it to its limit, and
    the feasible bounds it passes along (lines 54-59). *)
Definition channel_name (ch : Channel) : string :=
  match ch with
  | ChDutyCycle => "duty_cycle"
  | ChCurrent => "current"
  | ChBrake => "brake"
  | ChSpeed => "speed"
  | ChPosition => "position"
  | ChServo => "servo"
  end.

Definition feasible (ch : Channel) : option double * option double :=
  match ch with
  | ChDutyCycle => (Some (of_Z (-1)), Some (of_Z 1))
  | ChServo => (Some (of_Z 0), Some (of_Z 1))
  | _ => (None, None)
  end.

(** A parameter value that is a double other than NaN. *)
Definition not_nan_parameter (p : ParameterValue) : Prop :=
  forall x, get_double p = Some x -> is_nan x = false.

(** Overrides of the types the constructor reads them with. *)
Definition string_or_absent (o : option OverrideValue) : Prop :=
  match o with
  | Some (OV_string _) | None => True
  | _ => False
  end.

Definition integer_or_absent (o : option OverrideValue) : Prop :=
  match o with
  | Some (OV_integer _) | None => True
  | _ => False
  end.

Definition limit_parameters_typed
    (node : gmap string OverrideValue) (ch : Channel) : Prop :=
  double_or_absent (node !! (channel_name ch +:+ "_min")) /\
  double_or_absent (node !! (channel_name ch +:+ "_max")).

Definition parameters_typed (node : gmap string OverrideValue) : Prop :=
  (forall ch, limit_parameters_typed node ch) /\
  string_or_absent (node !! "port") /\
  integer_or_absent (node !! "vesc_id").

Definition never_connects : string -> Z -> bool := λ _ _, false.

(** Overrides for the examples: a servo range, and a lone servo minimum. *)
Definition servo_narrowed : gmap string OverrideValue :=
  {[ "servo_min" := OV_double (of_ratio 2 10);
     "servo_max" := OV_double (of_ratio 8 10) ]}.

Definition servo_lone_min : gmap string OverrideValue :=
  {[ "servo_min" := OV_double (of_ratio 2 10) ]}.

(** The driver as the constructor leaves it with the servo range
    narrowed. *)
Definition servo_narrowed_driver : VescCanDriver :=
  {| duty_cycle_limit_ := unconfigured_limit "duty_cycle";
     current_limit_ := unconfigured_limit "current";
     brake_limit_ := unconfigured_limit "brake";
     speed_limit_ := unconfigured_limit "speed";
     position_limit_ := unconfigured_limit "position";
     servo_limit_ :=
       {| CommandLimit.name := "servo";
          CommandLimit.lower := Some (of_ratio 2 10);
          CommandLimit.upper := Some (of_ratio 8 10) |};
     driver_mode_ := MODE_INITIALIZING;
     fw_version_major_ := -1;
     fw_version_minor_ := -1;
     controller_id_ := 0x68;
     state_msg_received_ := false;
     vesc_ := [];
     state_pub_ := [];
     servo_sensor_pub_ := [] |}.

Definition duty_cycle_integer_min : gmap string OverrideValue :=
  {[ "duty_cycle_min" := OV_integer (-1) ]}.

(** The fields of a published state message that are copied from the
    message received, and its time stamp. *)
Definition copied_from (ev : Z * RoboswVescState) (m : VescStateStamped)
    : Prop :=
  stamp m = fst ev /\
  voltage_input (state m) = in_voltage_input (snd ev) /\
  current_motor (state m) = in_current_motor (snd ev) /\
  current_input (state m) = in_current_input (snd ev) /\
  duty_cycle (state m) = in_duty_cycle (snd ev) /\
  speed (state m) = in_speed (snd ev) /\
  charge_drawn (state m) = in_charge_drawn (snd ev) /\
  charge_regen (state m) = in_charge_regen (snd ev) /\
  energy_drawn (state m) = in_energy_drawn (snd ev) /\
  energy_regen (state m) = in_energy_regen (snd ev) /\
  displacement (state m) = in_displacement (snd ev) /\
  distance_traveled (state m) = in_distance_traveled (snd ev) /\
  fault_code (state m) = in_fault_code (snd ev).

(** A call on a channel that has feasible bounds carries a value within
    them. *)
Definition call_in_feasible_range (c : VescCall) : Prop :=
  match feasible (call_channel c) with
  | (Some lo, Some hi) => within lo hi (call_value c) = true
  | _ => True
  end.

(** * Properties *)

(** ** The order on doubles *)

Section DoubleOrder.

Implicit Types x y : double.

Lemma SFcompare_antisym x y :
  SFcompare y x = CompOpp <$> SFcompare x y.
Proof.
  destruct x as [sx|sx| |sx mx ex], y as [sy|sy| |sy my ey]; simpl;
    try reflexivity; try (destruct sx; reflexivity);
    try (destruct sy; reflexivity);
    try (destruct sx, sy; reflexivity).
  destruct sx, sy; simpl; try reflexivity;
    rewrite (Z.compare_antisym ex ey);
    destruct (ex ?= ey) eqn:E; simpl; try reflexivity;
    change (PosDef.Pos.compare_cont Eq my mx) with (Pos.compare my mx);
    change (PosDef.Pos.compare_cont Eq mx my) with (Pos.compare mx my);
    rewrite (Pos.compare_antisym mx my);
    destruct (Pos.compare mx my); reflexivity.
Qed.

Lemma SFcompare_refl x : is_nan x = false -> SFcompare x x = Some Eq.
Proof.
  destruct x as [s|s| |s m e]; simpl; try discriminate; intros _;
    try (destruct s; reflexivity).
  rewrite Z.compare_refl.
  change (PosDef.Pos.compare_cont Eq m m) with (Pos.compare m m).
  rewrite Pos.compare_refl. destruct s; reflexivity.
Qed.

Lemma SFcompare_nan x y :
  SFcompare x y = None <-> is_nan x = true \/ is_nan y = true.
Proof.
  destruct x as [sx|sx| |sx mx ex], y as [sy|sy| |sy my ey]; simpl;
    split; intros H; try discriminate; auto;
    try (destruct H; discriminate).
Qed.

Lemma ltb_irrefl x : (x <? x)%double = false.
Proof.
  unfold ltb, SFltb. destruct (is_nan x) eqn:N.
  - destruct x; try discriminate. reflexivity.
  - rewrite SFcompare_refl by assumption. reflexivity.
Qed.

Lemma ltb_asym x y : (x <? y)%double = true -> (y <? x)%double = false.
Proof.
  unfold ltb, SFltb. rewrite (SFcompare_antisym x y).
  destruct (SFcompare x y) as [[]|]; simpl; congruence.
Qed.

Lemma gtb_ltb x y : (x >? y)%double = (y <? x)%double.
Proof. reflexivity. Qed.

Lemma leb_refl x : is_nan x = false -> (x <=? x)%double = true.
Proof.
  intros N. unfold leb, SFleb. rewrite SFcompare_refl by assumption.
  reflexivity.
Qed.

Lemma not_ltb_leb x y :
  is_nan x = false -> is_nan y = false ->
  (x <? y)%double = false -> (y <=? x)%double = true.
Proof.
  intros Nx Ny. unfold ltb, leb, SFltb, SFleb.
  rewrite (SFcompare_antisym x y).
  destruct (SFcompare x y) as [[]|] eqn:E; simpl; try congruence.
  apply SFcompare_nan in E. destruct E; congruence.
Qed.

Lemma ltb_leb x y : (x <? y)%double = true -> (x <=? y)%double = true.
Proof.
  unfold ltb, leb, SFltb, SFleb.
  destruct (SFcompare x y) as [[]|]; congruence.
Qed.

Lemma leb_not_nan x y :
  (x <=? y)%double = true -> is_nan x = false /\ is_nan y = false.
Proof.
  unfold leb, SFleb. destruct x, y; simpl; try discriminate; auto.
Qed.

Lemma ltb_nan_l y : (nan <? y)%double = false.
Proof. reflexivity. Qed.

Lemma ltb_nan_r x : (x <? nan)%double = false.
Proof. destruct x; reflexivity. Qed.

End DoubleOrder.

(** ** Construction of a CommandLimit *)

Section Construction.

Import CommandLimit.

Lemma is_set_override o : is_set (override_value o) = true.
Proof. destruct o; reflexivity. Qed.

Lemma is_set_declare node key d :
  is_set (declare_parameter node key (PV_double d)) = true.
Proof.
  unfold declare_parameter. destruct (node !! key) as [o|].
  - apply is_set_override.
  - reflexivity.
Qed.

(** A parameter that is set resolves to a bound that is set. *)
Lemma resolve_lower_set min_lower max_upper p r :
  is_set p = true ->
  resolve_lower min_lower max_upper p = Some r ->
  exists x, r = Some x.
Proof.
  intros Hp. unfold resolve_lower. rewrite Hp.
  destruct (get_double p) as [x|]; simpl;
    destruct min_lower as [lo|], max_upper as [hi|]; simpl;
    try discriminate;
    repeat match goal with
           | |- context [if ?b then _ else _] => destruct b; simpl
           end;
    intros [= <-]; eauto.
Qed.

Lemma resolve_upper_set min_lower max_upper p r :
  is_set p = true ->
  resolve_upper min_lower max_upper p = Some r ->
  exists x, r = Some x.
Proof.
  intros Hp. unfold resolve_upper. rewrite Hp.
  destruct (get_double p) as [x|]; simpl;
    destruct min_lower as [lo|], max_upper as [hi|]; simpl;
    try discriminate;
    repeat match goal with
           | |- context [if ?b then _ else _] => destruct b; simpl
           end;
    intros [= <-]; eauto.
Qed.

(** The constructor, step by step. *)
Lemma new_inv node str min_lower max_upper cl :
  new node str min_lower max_upper = Some cl ->
  exists l0 u0,
    resolve_lower min_lower max_upper (param_min node str)
      = Some (Some l0) /\
    resolve_upper min_lower max_upper (param_max node str)
      = Some (Some u0) /\
    name cl = str /\
    (lower cl, upper cl) = swap_inverted (Some l0) (Some u0).
Proof.
  unfold new. intros H.
  destruct (resolve_lower _ _ _) as [lo|] eqn:Hlo; [|discriminate].
  destruct (resolve_upper _ _ _) as [hi|] eqn:Hhi; [|discriminate].
  simpl in H.
  destruct (resolve_lower_set _ _ _ _ (is_set_declare _ _ _) Hlo) as [l0 ->].
  destruct (resolve_upper_set _ _ _ _ (is_set_declare _ _ _) Hhi) as [u0 ->].
  exists l0, u0. repeat split.
  - destruct (swap_inverted _ _); injection H as <-; reflexivity.
  - destruct (swap_inverted _ _); injection H as <-; reflexivity.
Qed.

Lemma swap_inverted_cases l0 u0 :
  ((l0 >? u0)%double = true /\
     swap_inverted (Some l0) (Some u0) = (Some u0, Some l0)) \/
  ((l0 >? u0)%double = false /\
     swap_inverted (Some l0) (Some u0) = (Some l0, Some u0)).
Proof.
  unfold swap_inverted. destruct (l0 >? u0)%double; auto.
Qed.

(** After construction both bounds are set and the lower one is not
    greater than the upper one. *)
Lemma new_bounds node str min_lower max_upper cl :
  new node str min_lower max_upper = Some cl ->
  exists l u,
    lower cl = Some l /\ upper cl = Some u /\ (l >? u)%double = false.
Proof.
  intros H. destruct (new_inv _ _ _ _ _ H) as (l0 & u0 & _ & _ & _ & Hsw).
  destruct (swap_inverted_cases l0 u0) as [[Hgt E]|[Hgt E]];
    rewrite E in Hsw; injection Hsw as -> ->.
  - exists u0, l0. repeat split. apply ltb_asym. exact Hgt.
  - exists l0, u0. repeat split. exact Hgt.
Qed.

(** When every parameter read has the type double, or no override, the
    constructor returns normally. *)
Lemma resolve_lower_double min_lower max_upper x :
  exists r, resolve_lower min_lower max_upper (PV_double x) = Some r.
Proof.
  unfold resolve_lower; simpl.
  destruct min_lower as [lo|], max_upper as [hi|]; simpl;
    repeat match goal with
           | |- context [if ?b then _ else _] => destruct b; simpl
           end; eauto.
Qed.

Lemma resolve_upper_double min_lower max_upper x :
  exists r, resolve_upper min_lower max_upper (PV_double x) = Some r.
Proof.
  unfold resolve_upper; simpl.
  destruct min_lower as [lo|], max_upper as [hi|]; simpl;
    repeat match goal with
           | |- context [if ?b then _ else _] => destruct b; simpl
           end; eauto.
Qed.

Lemma new_total node str min_lower max_upper :
  double_or_absent (node !! (str +:+ "_min")) ->
  double_or_absent (node !! (str +:+ "_max")) ->
  exists cl, new node str min_lower max_upper = Some cl.
Proof.
  intros Hmin Hmax. unfold new, param_min, param_max, declare_parameter.
  assert (exists x, match node !! (str +:+ "_min") with
                    | Some o => override_value o
                    | None => PV_double zero
                    end = PV_double x) as [x ->].
  { destruct (node !! (str +:+ "_min")) as [[]|]; simpl in *; try tauto; eauto. }
  assert (exists y, match node !! (str +:+ "_max") with
                    | Some o => override_value o
                    | None => PV_double zero
                    end = PV_double y) as [y ->].
  { destruct (node !! (str +:+ "_max")) as [[]|]; simpl in *; try tauto; eauto. }
  destruct (resolve_lower_double min_lower max_upper x) as [lo ->].
  destruct (resolve_upper_double min_lower max_upper y) as [hi ->].
  simpl. destruct (swap_inverted lo hi). eauto.
Qed.

End Construction.

(** ** Clipping *)

Section Clip.

Import CommandLimit.

Lemma new_duty_cycle_unconfigured :
  new ∅ "duty_cycle" (Some (of_Z (-1))) (Some (of_Z 1))
  = Some duty_cycle_unconfigured.
Proof. vm_compute. reflexivity. Qed.

(** C3, as stated, fails: with both bounds set, a NaN command is returned
    as it is, and NaN lies in no interval. *)
Lemma clip_nan_outside_bounds :
  ~ (forall node str min_lower max_upper cl lo hi v,
       new node str min_lower max_upper = Some cl ->
       lower cl = Some lo -> upper cl = Some hi ->
       (lo <=? clip cl v)%double = true /\
       (clip cl v <=? hi)%double = true).
Proof.
  intros H.
  destruct (H ∅ "duty_cycle"%string (Some (of_Z (-1))) (Some (of_Z 1))
              duty_cycle_unconfigured zero zero nan
              new_duty_cycle_unconfigured eq_refl eq_refl) as [H1 _].
  vm_compute in H1. discriminate H1.
Qed.

(** C3 (amended): [clip] is a total function; it returns the lower bound
    when that is set and the value is below it, else the upper bound when
    that is set and the value is above it, else the value itself.  With
    no bound set the value is returned unchanged.  For a constructed
    limit with both bounds set, the result lies between the bounds
    provided that neither the value nor a bound is NaN. *)
Theorem clip_spec (cl : t) (v : double) :
  (forall lo, lower cl = Some lo -> (v <? lo)%double = true ->
     clip cl v = lo) /\
  (forall hi, upper cl = Some hi ->
     (forall lo, lower cl = Some lo -> (v <? lo)%double = false) ->
     (v >? hi)%double = true ->
     clip cl v = hi) /\
  ((forall lo, lower cl = Some lo -> (v <? lo)%double = false) ->
   (forall hi, upper cl = Some hi -> (v >? hi)%double = false) ->
   clip cl v = v) /\
  (lower cl = None -> upper cl = None -> clip cl v = v) /\
  (forall node str min_lower max_upper lo hi,
     new node str min_lower max_upper = Some cl ->
     lower cl = Some lo -> upper cl = Some hi ->
     is_nan v = false -> is_nan lo = false -> is_nan hi = false ->
     (lo <=? clip cl v)%double = true /\
     (clip cl v <=? hi)%double = true).
Proof.
  unfold clip. split; [|split; [|split; [|split]]].
  - intros lo -> ->. reflexivity.
  - intros hi -> Hlo ->.
    destruct (lower cl) as [lo|]; [rewrite (Hlo lo eq_refl)|]; reflexivity.
  - intros Hlo Hhi.
    destruct (lower cl) as [lo|]; [rewrite (Hlo lo eq_refl)|];
      (destruct (upper cl) as [hi|]; [rewrite (Hhi hi eq_refl)|]);
      reflexivity.
  - intros -> ->. reflexivity.
  - intros node str min_lower max_upper lo hi Hnew Hlo Hhi Nv Nlo Nhi.
    destruct (new_bounds _ _ _ _ _ Hnew) as (l & u & Hl & Hu & Hlu).
    rewrite Hlo in Hl. rewrite Hhi in Hu.
    injection Hl as <-. injection Hu as <-.
    rewrite Hlo, Hhi.
    destruct (v <? lo)%double eqn:E1.
    { split; [apply leb_refl | apply not_ltb_leb]; assumption. }
    destruct (v >? hi)%double eqn:E2.
    { split; [apply not_ltb_leb | apply leb_refl]; assumption. }
    split; apply not_ltb_leb; assumption.
Qed.

Lemma clip_spec_witness :
  (zero <=? clip duty_cycle_unconfigured (of_ratio 3 2))%double = true /\
  (clip duty_cycle_unconfigured (of_ratio 3 2) <=? zero)%double = true.
Proof.
  apply (proj2 (proj2 (proj2 (proj2
           (clip_spec duty_cycle_unconfigured (of_ratio 3 2)))))
           ∅ "duty_cycle"%string (Some (of_Z (-1))) (Some (of_Z 1)) zero zero);
    vm_compute; reflexivity.
Defined.

(** C4, as stated, fails: a NaN override is neither below nor above
    anything, so it is kept as a bound and no swap takes place. *)
Lemma nan_bound_not_ordered :
  ~ (forall node str min_lower max_upper cl l u,
       new node str min_lower max_upper = Some cl ->
       lower cl = Some l -> upper cl = Some u ->
       (l <=? u)%double = true).
Proof.
  intros H.
  specialize (H {[ "speed_min"%string := OV_double nan;
                   "speed_max"%string := OV_double (of_Z 1) ]}
                "speed"%string None None
                {| name := "speed"; lower := Some nan;
                   upper := Some (of_Z 1) |}
                nan (of_Z 1)).
  assert (E : (nan <=? of_Z 1)%double = true).
  { apply H; vm_compute; reflexivity. }
  vm_compute in E. discriminate E.
Qed.

(** C4 (amended): after construction the lower bound is never greater
    than the upper bound, and [lower <= upper] holds whenever neither
    bound is NaN; the bounds are those resolved from the two parameters,
    exchanged exactly when the resolved lower one is greater than the
    resolved upper one. *)
Theorem new_bounds_ordered node str min_lower max_upper cl l u :
  new node str min_lower max_upper = Some cl ->
  lower cl = Some l -> upper cl = Some u ->
  (l >? u)%double = false /\
  (is_nan l = false -> is_nan u = false -> (l <=? u)%double = true) /\
  exists l0 u0,
    resolve_lower min_lower max_upper (param_min node str)
      = Some (Some l0) /\
    resolve_upper min_lower max_upper (param_max node str)
      = Some (Some u0) /\
    ((l0 >? u0)%double = true -> l = u0 /\ u = l0) /\
    ((l0 >? u0)%double = false -> l = l0 /\ u = u0).
Proof.
  intros H Hl Hu.
  destruct (new_bounds _ _ _ _ _ H) as (l' & u' & Hl' & Hu' & Hlu).
  rewrite Hl in Hl'. rewrite Hu in Hu'.
  injection Hl' as <-. injection Hu' as <-.
  split; [exact Hlu|]. split.
  - intros Nl Nu. apply not_ltb_leb; assumption.
  - destruct (new_inv _ _ _ _ _ H) as (l0 & u0 & Rl & Ru & _ & Hsw).
    exists l0, u0. split; [exact Rl|]. split; [exact Ru|].
    rewrite Hl, Hu in Hsw.
    destruct (swap_inverted_cases l0 u0) as [[Hgt E]|[Hgt E]];
      rewrite E in Hsw; injection Hsw as -> ->; rewrite Hgt;
      split; intros; try discriminate; auto.
Qed.

Lemma new_bounds_ordered_witness :
  (of_ratio 2 10 >? of_ratio 8 10)%double = false /\
  (of_ratio 2 10 <=? of_ratio 8 10)%double = true.
Proof.
  destruct (new_bounds_ordered servo_inverted "servo"%string
              (Some (of_Z 0)) (Some (of_Z 1))
              {| name := "servo"; lower := Some (of_ratio 2 10);
                 upper := Some (of_ratio 8 10) |}
              (of_ratio 2 10) (of_ratio 8 10))
    as (H1 & H2 & _).
  - vm_compute. reflexivity.
  - reflexivity.
  - reflexivity.
  - split; [exact H1 | apply H2; reflexivity].
Defined.

(** C5: clipping twice is clipping once, for every constructed limit. *)
Theorem clip_idempotent node str min_lower max_upper cl v :
  new node str min_lower max_upper = Some cl ->
  clip cl (clip cl v) = clip cl v.
Proof.
  intros H.
  destruct (new_bounds _ _ _ _ _ H) as (l & u & Hl & Hu & Hlu).
  unfold clip. rewrite Hl, Hu.
  destruct (v <? l)%double eqn:E1.
  - rewrite ltb_irrefl, Hlu. reflexivity.
  - destruct (v >? u)%double eqn:E2.
    + change ((u <? l)%double = false) in Hlu. rewrite Hlu.
      rewrite gtb_ltb, ltb_irrefl. reflexivity.
    + rewrite E1, E2. reflexivity.
Qed.

Lemma clip_idempotent_witness :
  clip duty_cycle_unconfigured (clip duty_cycle_unconfigured (of_ratio 3 2))
  = clip duty_cycle_unconfigured (of_ratio 3 2).
Proof.
  apply (clip_idempotent ∅ "duty_cycle"%string
           (Some (of_Z (-1))) (Some (of_Z 1))).
  vm_compute. reflexivity.
Defined.

End Clip.

(** ** Bound resolution *)

Section Resolution.

Import CommandLimit.

Lemma param_min_override node str x :
  node !! (str +:+ "_min") = Some (OV_double x) ->
  param_min node str = PV_double x.
Proof. unfold param_min, declare_parameter. intros ->. reflexivity. Qed.

Lemma param_max_override node str x :
  node !! (str +:+ "_max") = Some (OV_double x) ->
  param_max node str = PV_double x.
Proof. unfold param_max, declare_parameter. intros ->. reflexivity. Qed.

Lemma param_min_default node str :
  node !! (str +:+ "_min") = None -> param_min node str = PV_double zero.
Proof. unfold param_min, declare_parameter. intros ->. reflexivity. Qed.

Lemma param_max_default node str :
  node !! (str +:+ "_max") = None -> param_max node str = PV_double zero.
Proof. unfold param_max, declare_parameter. intros ->. reflexivity. Qed.

(** C6: a configured lower override below the feasible lower bound
    resolves to that bound; otherwise one above the feasible upper bound
    resolves to the feasible upper bound; otherwise it resolves to
    itself.  A configured upper override is resolved by the same three
    cases, tested in the same order. *)
Theorem resolve_override node str min_lower max_upper x :
  (node !! (str +:+ "_min") = Some (OV_double x) ->
     (below_feasible min_lower x = true ->
        is_Some min_lower /\
        resolve_lower min_lower max_upper (param_min node str)
        = Some min_lower) /\
     (below_feasible min_lower x = false ->
      above_feasible max_upper x = true ->
        is_Some max_upper /\
        resolve_lower min_lower max_upper (param_min node str)
        = Some max_upper) /\
     (below_feasible min_lower x = false ->
      above_feasible max_upper x = false ->
        resolve_lower min_lower max_upper (param_min node str)
        = Some (Some x))) /\
  (node !! (str +:+ "_max") = Some (OV_double x) ->
     (below_feasible min_lower x = true ->
        is_Some min_lower /\
        resolve_upper min_lower max_upper (param_max node str)
        = Some min_lower) /\
     (below_feasible min_lower x = false ->
      above_feasible max_upper x = true ->
        is_Some max_upper /\
        resolve_upper min_lower max_upper (param_max node str)
        = Some max_upper) /\
     (below_feasible min_lower x = false ->
      above_feasible max_upper x = false ->
        resolve_upper min_lower max_upper (param_max node str)
        = Some (Some x))).
Proof.
  split; intros Hcfg;
    [rewrite (param_min_override _ _ _ Hcfg); unfold resolve_lower
    |rewrite (param_max_override _ _ _ Hcfg); unfold resolve_upper];
    unfold below_feasible, above_feasible; simpl;
    (split; [|split]).
  all: destruct min_lower as [lo|], max_upper as [hi|]; simpl;
    try discriminate; intros; 
    repeat match goal with
           | H : _ = _ |- _ => rewrite H
           end;
    simpl; eauto.
Qed.

Lemma resolve_override_witness :
  resolve_lower (Some (of_Z (-1))) (Some (of_Z 1))
    (param_min {[ "duty_cycle_min" := OV_double (of_Z 5) ]} "duty_cycle")
  = Some (Some (of_Z 1)).
Proof.
  destruct (resolve_override {[ "duty_cycle_min" := OV_double (of_Z 5) ]}
              "duty_cycle" (Some (of_Z (-1))) (Some (of_Z 1)) (of_Z 5))
    as [Hmin _].
  destruct Hmin as (_ & Habove & _).
  - vm_compute. reflexivity.
  - apply Habove; vm_compute; reflexivity.
Defined.

Lemma clip_zero_bounds str v :
  is_nan v = false ->
  (clip {| name := str; lower := Some zero; upper := Some zero |} v
     ==? zero)%double = true.
Proof.
  destruct v as [s|s| |s m e]; try discriminate; intros _;
    destruct s; reflexivity.
Qed.

Lemma clip_zero_bounds_eq str v :
  is_nan v = false -> v <> neg_zero ->
  clip {| name := str; lower := Some zero; upper := Some zero |} v = zero.
Proof.
  destruct v as [s|s| |s m e]; try discriminate; intros _ Hv;
    destruct s; try reflexivity.
  contradiction Hv. reflexivity.
Qed.

Lemma new_unconfigured node str :
  node !! (str +:+ "_min") = None ->
  node !! (str +:+ "_max") = None ->
  new node str None None
  = Some {| name := str; lower := Some zero; upper := Some zero |}.
Proof.
  intros Hmin Hmax. unfold new.
  rewrite (param_min_default _ _ Hmin), (param_max_default _ _ Hmax).
  reflexivity.
Qed.

(** C9, as stated, fails: with both bounds 0.0, a NaN command is neither
    below the lower bound nor above the upper one and is returned as it
    is; NaN does not compare equal to 0.0. *)
Lemma clip_nan_not_zero :
  ~ (forall node str cl v,
       node !! (str +:+ "_min") = None ->
       node !! (str +:+ "_max") = None ->
       new node str None None = Some cl ->
       (clip cl v ==? zero)%double = true).
Proof.
  intros H.
  assert (E : (clip {| name := "current"; lower := Some zero;
                       upper := Some zero |} nan ==? zero)%double = true).
  { apply (H ∅ "current"%string); vm_compute; reflexivity. }
  vm_compute in E. discriminate E.
Qed.

(** C9 (amended): both parameters of a channel always hold a value, so
    both bounds are set after construction.  For a channel without
    feasible bounds and without overrides the constructor returns the
    bounds lower = upper = 0.0, and clipping any command other than NaN
    gives a zero. *)
Theorem default_bounds node str min_lower max_upper :
  is_set (param_min node str) = true /\
  is_set (param_max node str) = true /\
  (forall cl, new node str min_lower max_upper = Some cl ->
     exists l u, lower cl = Some l /\ upper cl = Some u) /\
  (min_lower = None -> max_upper = None ->
   node !! (str +:+ "_min") = None ->
   node !! (str +:+ "_max") = None ->
     new node str min_lower max_upper
     = Some {| name := str; lower := Some zero; upper := Some zero |} /\
     forall v, is_nan v = false ->
       (clip {| name := str; lower := Some zero; upper := Some zero |} v
          ==? zero)%double = true /\
       (v <> neg_zero ->
        clip {| name := str; lower := Some zero; upper := Some zero |} v
        = zero)).
Proof.
  split; [apply is_set_declare|]. split; [apply is_set_declare|]. split.
  - intros cl H.
    destruct (new_bounds _ _ _ _ _ H) as (l & u & Hl & Hu & _). eauto.
  - intros -> -> Hmin Hmax. split.
    + apply new_unconfigured; assumption.
    + intros v Nv. split; [apply clip_zero_bounds; exact Nv|].
      apply clip_zero_bounds_eq. exact Nv.
Qed.

Lemma default_bounds_witness :
  new ∅ "current" None None
  = Some {| name := "current"; lower := Some zero; upper := Some zero |} /\
  (clip {| name := "current"; lower := Some zero; upper := Some zero |}
     (of_Z 5) ==? zero)%double = true.
Proof.
  destruct (default_bounds ∅ "current" None None) as (_ & _ & _ & H).
  destruct H as [Hnew Hclip]; try reflexivity.
  split; [exact Hnew | apply (Hclip (of_Z 5)); reflexivity].
Defined.

(** C2: the code does not do what the claim says.  With no override the
    two parameters of the duty cycle channel hold their default 0.0, the
    bounds are [0.0, 0.0], and 1.5, -2.0 and 0.3 are all clipped to
    0.0; likewise a channel without feasible bounds and without
    overrides clips 5.0 to 0.0 instead of leaving it alone. *)
Theorem duty_cycle_unconfigured_clips_to_zero :
  new ∅ "duty_cycle" (Some (of_Z (-1))) (Some (of_Z 1))
  = Some duty_cycle_unconfigured /\
  clip duty_cycle_unconfigured (of_ratio 3 2) = zero /\
  clip duty_cycle_unconfigured (of_Z (-2)) = zero /\
  clip duty_cycle_unconfigured (of_ratio 3 10) = zero /\
  (zero ==? of_Z 1)%double = false /\
  (zero ==? of_Z (-1))%double = false /\
  (zero ==? of_ratio 3 10)%double = false /\
  new ∅ "current" None None
  = Some {| name := "current"; lower := Some zero; upper := Some zero |} /\
  clip {| name := "current"; lower := Some zero; upper := Some zero |}
    (of_Z 5) = zero.
Proof. vm_compute. repeat split; reflexivity. Qed.

End Resolution.

(** ** Command dispatch *)

Section Dispatch.

(** What a command callback does to the driver, whatever its mode. *)
Lemma commandCallback_vesc ch v d :
  vesc_ (exec (commandCallback ch v) d)
  = vesc_ d ++ [vesc_call_of ch (CommandLimit.clip (limit_of ch d) v)].
Proof. destruct ch; reflexivity. Qed.

Lemma commandCallback_mode ch v d :
  driver_mode_ (exec (commandCallback ch v) d) = MODE_OPERATING.
Proof. destruct ch; reflexivity. Qed.

Lemma commandCallback_received ch v d :
  state_msg_received_ (exec (commandCallback ch v) d)
  = state_msg_received_ d.
Proof. destruct ch; reflexivity. Qed.

Lemma servoCallback_sensor v d :
  servo_sensor_pub_ (exec (servoCallback v) d)
  = servo_sensor_pub_ d ++ [CommandLimit.clip (servo_limit_ d) v].
Proof. reflexivity. Qed.

Lemma new_unconfigured_driver :
  VescCanDriver_new ∅ always_connects = Some (Running unconfigured_driver).
Proof. vm_compute. reflexivity. Qed.

(** C1: the code does not do what the claim says.  The guard of every
    command callback is the assignment [driver_mode_ = MODE_OPERATING],
    whose value is true: a command that arrives in mode INITIALIZING is
    clipped and sent to the VESC, and the mode becomes OPERATING.  On a
    driver just started, a duty cycle command of 0.3 reaches the VESC at
    once. *)
Theorem command_sent_while_initializing (d : VescCanDriver) ch v :
  driver_mode_ (set_driver_mode MODE_INITIALIZING d) = MODE_INITIALIZING /\
  vesc_ (exec (commandCallback ch v) (set_driver_mode MODE_INITIALIZING d))
  = vesc_ d ++ [vesc_call_of ch (CommandLimit.clip (limit_of ch d) v)] /\
  driver_mode_
    (exec (commandCallback ch v) (set_driver_mode MODE_INITIALIZING d))
  = MODE_OPERATING /\
  driver_mode_ unconfigured_driver = MODE_INITIALIZING /\
  vesc_ (run [EvCommand ChDutyCycle (of_ratio 3 10)] unconfigured_driver)
  = [SetDutyCycle zero].
Proof.
  split; [reflexivity|]. split.
  - rewrite commandCallback_vesc. destruct ch; reflexivity.
  - split; [apply commandCallback_mode|]. split; reflexivity.
Qed.

(** The conversion of line 245 maps a quarter turn to 90 degrees. *)
Lemma quarter_turn_in_degrees :
  (M_PI / of_Z 2 * of_Z 180 / M_PI)%double = of_Z 90.
Proof. vm_compute. reflexivity. Qed.

(** With bounds that let the command through, a quarter turn reaches
    the VESC as 90 degrees. *)
Lemma quarter_turn_unbounded :
  match VescCanDriver_new position_unbounded always_connects with
  | Some (Running d) =>
      vesc_ (run [EvCommand ChPosition (M_PI / of_Z 2)%double] d)
      = [SetPosition (of_Z 90)]
  | _ => False
  end.
Proof. vm_compute. reflexivity. Qed.

(** C7: the code does not do what the claim says.  On a driver started
    without overrides, still in mode INITIALIZING, a position command of
    pi/2 is clipped to 0.0 by the bounds [0.0, 0.0] and is sent to the
    VESC as 0.0 degrees. *)
Theorem quarter_turn_sent_as_zero :
  VescCanDriver_new ∅ always_connects = Some (Running unconfigured_driver) /\
  driver_mode_ unconfigured_driver = MODE_INITIALIZING /\
  CommandLimit.clip (position_limit_ unconfigured_driver)
    (M_PI / of_Z 2)%double
  = zero /\
  vesc_ (run [EvCommand ChPosition (M_PI / of_Z 2)%double] unconfigured_driver)
  = [SetPosition zero] /\
  (zero ==? of_Z 90)%double = false.
Proof.
  split; [apply new_unconfigured_driver|]. vm_compute.
  repeat split; reflexivity.
Qed.

End Dispatch.

(** ** The driver state machine *)

Section StateMachine.

Lemma run_app es1 es2 d : run (es1 ++ es2) d = run es2 (run es1 d).
Proof. unfold run. apply fold_left_app. Qed.

Lemma run_cons e es d : run (e :: es) d = run es (exec (dispatch e) d).
Proof. reflexivity. Qed.

Lemma timerCallback_mode d :
  driver_mode_ (exec timerCallback d)
  = match driver_mode_ d with
    | MODE_INITIALIZING =>
        if state_msg_received_ d then MODE_OPERATING else MODE_INITIALIZING
    | MODE_OPERATING => MODE_OPERATING
    end.
Proof.
  unfold timerCallback, exec, mbind, Action_bind, read, modify, mret,
    Action_ret.
  destruct (driver_mode_ d) eqn:Hm; simpl.
  - destruct (state_msg_received_ d); simpl; [reflexivity | exact Hm].
  - exact Hm.
Qed.

Lemma timerCallback_received d :
  state_msg_received_ (exec timerCallback d) = state_msg_received_ d.
Proof.
  unfold timerCallback, exec, mbind, Action_bind, read, modify, mret,
    Action_ret.
  destruct (driver_mode_ d); simpl; [|reflexivity].
  destruct (state_msg_received_ d) eqn:E; simpl; exact E.
Qed.

Lemma VescStateUpdatedCallback_mode now msg d :
  driver_mode_ (exec (VescStateUpdatedCallback now msg) d) = driver_mode_ d.
Proof.
  unfold VescStateUpdatedCallback, exec, mbind, Action_bind, read, modify,
    mret, Action_ret.
  destruct (state_msg_received_ d); reflexivity.
Qed.

Lemma VescStateUpdatedCallback_received now msg d :
  state_msg_received_ (exec (VescStateUpdatedCallback now msg) d) = true.
Proof.
  unfold VescStateUpdatedCallback, exec, mbind, Action_bind, read, modify,
    mret, Action_ret.
  destruct (state_msg_received_ d) eqn:E; simpl; [exact E | reflexivity].
Qed.

(** No callback leaves the mode OPERATING. *)
Lemma dispatch_operating e d :
  driver_mode_ d = MODE_OPERATING ->
  driver_mode_ (exec (dispatch e) d) = MODE_OPERATING.
Proof.
  intros Hm. destruct e as [|ch v|now msg]; simpl.
  - rewrite timerCallback_mode, Hm. reflexivity.
  - apply commandCallback_mode.
  - rewrite VescStateUpdatedCallback_mode. exact Hm.
Qed.

Lemma run_operating es : forall d,
  driver_mode_ d = MODE_OPERATING ->
  driver_mode_ (run es d) = MODE_OPERATING.
Proof.
  induction es as [|e es IH]; intros d Hm; [exact Hm|].
  rewrite run_cons. apply IH, dispatch_operating, Hm.
Qed.

(** The latch is set by the first state message and never cleared. *)
Lemma dispatch_received e d :
  state_msg_received_ (exec (dispatch e) d)
  = state_msg_received_ d || is_state_event e.
Proof.
  destruct e as [|ch v|now msg]; simpl.
  - rewrite timerCallback_received, orb_false_r. reflexivity.
  - rewrite commandCallback_received, orb_false_r. reflexivity.
  - rewrite VescStateUpdatedCallback_received, orb_true_r. reflexivity.
Qed.

Lemma run_received es : forall d,
  state_msg_received_ (run es d)
  = state_msg_received_ d || existsb is_state_event es.
Proof.
  induction es as [|e es IH]; intros d; simpl existsb.
  - rewrite orb_false_r. reflexivity.
  - rewrite run_cons, IH, dispatch_received, orb_assoc. reflexivity.
Qed.

Lemma new_initial node connect_ok d0 :
  VescCanDriver_new node connect_ok = Some (Running d0) ->
  driver_mode_ d0 = MODE_INITIALIZING /\ state_msg_received_ d0 = false /\
  vesc_ d0 = [] /\ state_pub_ d0 = [].
Proof.
  unfold VescCanDriver_new. intros H.
  repeat match type of H with
         | mbind _ ?m = Some _ => destruct m; simpl in H; [|discriminate]
         end.
  destruct (connect_ok _ _); [|discriminate].
  injection H as <-. repeat split.
Qed.

(** C8: a driver starts in mode INITIALIZING with the latch unset; the
    latch is set exactly when a state message has arrived; a timer tick
    in mode INITIALIZING leads to OPERATING exactly when the latch is
    set; and once the mode is OPERATING it stays so under every further
    sequence of ticks, commands and state messages. *)
Theorem driver_mode_monotonic node connect_ok d0 :
  VescCanDriver_new node connect_ok = Some (Running d0) ->
  driver_mode_ d0 = MODE_INITIALIZING /\
  (forall es,
     state_msg_received_ (run es d0) = existsb is_state_event es) /\
  (forall es,
     driver_mode_ (run es d0) = MODE_INITIALIZING ->
     (driver_mode_ (run (es ++ [EvTimer]) d0) = MODE_OPERATING <->
      existsb is_state_event es = true)) /\
  (forall es1 es2,
     driver_mode_ (run es1 d0) = MODE_OPERATING ->
     driver_mode_ (run (es1 ++ es2) d0) = MODE_OPERATING).
Proof.
  intros H. destruct (new_initial _ _ _ H) as (Hm & Hr & _ & _).
  split; [exact Hm|].
  assert (Hlatch : forall es,
            state_msg_received_ (run es d0) = existsb is_state_event es).
  { intros es. rewrite run_received, Hr. reflexivity. }
  split; [exact Hlatch|]. split.
  - intros es Hes. rewrite run_app.
    change (run [EvTimer] (run es d0)) with (exec timerCallback (run es d0)).
    rewrite timerCallback_mode, Hes, Hlatch.
    destruct (existsb is_state_event es); split; congruence.
  - intros es1 es2 Hop. rewrite run_app. apply run_operating, Hop.
Qed.

Lemma driver_mode_monotonic_witness :
  driver_mode_
    (run ([EvState 0 sample_state; EvTimer]
            ++ [EvState 1 sample_state; EvTimer;
                EvCommand ChSpeed (of_Z 100)])
       unconfigured_driver)
  = MODE_OPERATING.
Proof.
  destruct (driver_mode_monotonic ∅ always_connects unconfigured_driver)
    as (_ & _ & _ & Hmono).
  - vm_compute. reflexivity.
  - apply Hmono. vm_compute. reflexivity.
Defined.

(** C10: on every state message, in any mode and whatever the driver's
    [controller_id_], one message is published; its [controller_id] is
    0x68, its fields [avg_id], [avg_iq], [pid_pos_now], [avg_vd] and
    [avg_vq] are 0, and its three MOSFET temperatures are the PCB
    temperature of the message received. *)
Theorem state_message_published (d : VescCanDriver) now msg :
  exists m,
    state_pub_ (exec (VescStateUpdatedCallback now msg) d)
    = state_pub_ d ++ [m] /\
    driver_mode_ (exec (VescStateUpdatedCallback now msg) d)
    = driver_mode_ d /\
    controller_id (state m) = 0x68 /\
    avg_id (state m) = zero /\
    avg_iq (state m) = zero /\
    pid_pos_now (state m) = zero /\
    avg_vd (state m) = zero /\
    avg_vq (state m) = zero /\
    ntc_temp_mos1 (state m) = in_temperature_pcb msg /\
    ntc_temp_mos2 (state m) = in_temperature_pcb msg /\
    ntc_temp_mos3 (state m) = in_temperature_pcb msg.
Proof.
  eexists. split.
  - unfold VescStateUpdatedCallback, exec, mbind, Action_bind, read, modify,
      mret, Action_ret.
    destruct (state_msg_received_ d); reflexivity.
  - split; [apply VescStateUpdatedCallback_mode|].
    repeat split.
Qed.

End StateMachine.

(** ** More on the order of doubles *)

Section DoubleOrderTotal.

Implicit Types x y z : double.

Lemma leb_trans x y z :
  (x <=? y)%double = true -> (y <=? z)%double = true ->
  (x <=? z)%double = true.
Proof.
  unfold leb, SFleb, SFcompare.
  destruct x as [sx|sx| |sx mx ex], y as [sy|sy| |sy my ey],
    z as [sz|sz| |sz mz ez];
    try discriminate; try reflexivity;
    try (destruct sx; try discriminate; try reflexivity);
    try (destruct sy; try discriminate; try reflexivity);
    try (destruct sz; try discriminate; try reflexivity).
  all: change (PosDef.Pos.compare_cont Eq mx my) with (Pos.compare mx my);
    change (PosDef.Pos.compare_cont Eq my mz) with (Pos.compare my mz);
    change (PosDef.Pos.compare_cont Eq mx mz) with (Pos.compare mx mz).
  all: destruct (Z.compare_spec ex ey), (Z.compare_spec ey ez),
         (Z.compare_spec ex ez); try lia; try discriminate; try reflexivity;
       subst;
       destruct (Pos.compare_spec mx my), (Pos.compare_spec my mz),
         (Pos.compare_spec mx mz); simpl; try lia; try discriminate;
       try reflexivity.
Qed.

Lemma leb_not_ltb x y : (x <=? y)%double = true -> (y <? x)%double = false.
Proof.
  unfold leb, ltb, SFleb, SFltb. rewrite (SFcompare_antisym x y).
  destruct (SFcompare x y) as [[]|]; simpl; congruence.
Qed.

Lemma ltb_not_nan x y :
  (x <? y)%double = true -> is_nan x = false /\ is_nan y = false.
Proof. intros H. apply leb_not_nan, ltb_leb, H. Qed.

Lemma ltb_leb_trans x y z :
  (x <? y)%double = true -> (y <=? z)%double = true ->
  (x <? z)%double = true.
Proof.
  intros Hxy Hyz.
  destruct (ltb_not_nan _ _ Hxy) as [Nx _].
  destruct (leb_not_nan _ _ Hyz) as [_ Nz].
  destruct (x <? z)%double eqn:E; [reflexivity|].
  apply not_ltb_leb in E; [|assumption|assumption].
  rewrite (leb_not_ltb _ _ (leb_trans _ _ _ Hyz E)) in Hxy. discriminate.
Qed.

Lemma within_spec lo hi v :
  within lo hi v = true <->
  (lo <=? v)%double = true /\ (v <=? hi)%double = true.
Proof. unfold within. apply andb_true_iff. Qed.

End DoubleOrderTotal.

(** ** More on construction and clipping *)

Section Limits.

Import CommandLimit.

Lemma resolve_lower_not_double min_lower max_upper p :
  is_set p = true -> get_double p = None ->
  resolve_lower min_lower max_upper p = None.
Proof.
  intros Hs Hd. unfold resolve_lower. rewrite Hs, Hd.
  destruct min_lower, max_upper; reflexivity.
Qed.

Lemma resolve_upper_not_double min_lower max_upper p :
  is_set p = true -> get_double p = None ->
  resolve_upper min_lower max_upper p = None.
Proof.
  intros Hs Hd. unfold resolve_upper. rewrite Hs, Hd.
  destruct min_lower, max_upper; reflexivity.
Qed.

Lemma declare_double_or_absent node key d :
  get_double (declare_parameter node key (PV_double d)) <> None ->
  double_or_absent (node !! key).
Proof.
  unfold declare_parameter, double_or_absent.
  destruct (node !! key) as [[]|]; simpl; intros H;
    try exact I; contradiction H; reflexivity.
Qed.

Lemma new_some_typed node str min_lower max_upper cl :
  new node str min_lower max_upper = Some cl ->
  double_or_absent (node !! (str +:+ "_min")) /\
  double_or_absent (node !! (str +:+ "_max")).
Proof.
  intros H.
  destruct (new_inv _ _ _ _ _ H) as (l0 & u0 & Rl & Ru & _ & _).
  split; apply (declare_double_or_absent _ _ zero); intros Hd.
  - fold (param_min node str) in Hd.
    rewrite (resolve_lower_not_double _ _ _ (is_set_declare _ _ _) Hd) in Rl.
    discriminate.
  - fold (param_max node str) in Hd.
    rewrite (resolve_upper_not_double _ _ _ (is_set_declare _ _ _) Hd) in Ru.
    discriminate.
Qed.

(** X1: the constructor of a limit returns normally exactly when each of
    the two parameters of the channel is overridden by a double or not
    overridden at all; an override of another type (an integer, say) makes
    [get<double>()] throw. *)
Theorem new_succeeds_iff node str min_lower max_upper :
  is_Some (new node str min_lower max_upper) <->
  double_or_absent (node !! (str +:+ "_min")) /\
  double_or_absent (node !! (str +:+ "_max")).
Proof.
  split.
  - intros [cl H]. exact (new_some_typed _ _ _ _ _ H).
  - intros [Hmin Hmax].
    destruct (new_total node str min_lower max_upper Hmin Hmax) as [cl ->].
    eauto.
Qed.

Lemma new_succeeds_iff_witness :
  new duty_cycle_integer_min "duty_cycle" (Some (of_Z (-1))) (Some (of_Z 1))
  = None.
Proof.
  destruct (new duty_cycle_integer_min "duty_cycle"
              (Some (of_Z (-1))) (Some (of_Z 1))) as [cl|] eqn:E;
    [|reflexivity].
  destruct (proj1 (new_succeeds_iff duty_cycle_integer_min "duty_cycle"
                     (Some (of_Z (-1))) (Some (of_Z 1))))
    as [Hmin _].
  - rewrite E. exists cl. reflexivity.
  - vm_compute in Hmin. destruct Hmin.
Defined.

(** The bounds resolved from parameters that are not NaN lie within
    feasible bounds that are in order. *)
Lemma resolve_lower_within lo hi p r :
  (lo <=? hi)%double = true -> not_nan_parameter p -> is_set p = true ->
  resolve_lower (Some lo) (Some hi) p = Some (Some r) ->
  within lo hi r = true.
Proof.
  intros Hlh Hp Hs. unfold resolve_lower. rewrite Hs.
  destruct (leb_not_nan _ _ Hlh) as [Nlo Nhi].
  destruct (get_double p) as [x|] eqn:Hx; simpl; [|discriminate].
  specialize (Hp x Hx).
  destruct (x <? lo)%double eqn:E1; simpl.
  { intros [= <-]. apply within_spec. split; [apply leb_refl|]; assumption. }
  destruct (x >? hi)%double eqn:E2; simpl.
  { intros [= <-]. apply within_spec. split; [|apply leb_refl]; assumption. }
  intros [= <-]. apply within_spec. split; apply not_ltb_leb; assumption.
Qed.

Lemma resolve_upper_within lo hi p r :
  (lo <=? hi)%double = true -> not_nan_parameter p -> is_set p = true ->
  resolve_upper (Some lo) (Some hi) p = Some (Some r) ->
  within lo hi r = true.
Proof.
  intros Hlh Hp Hs. unfold resolve_upper. rewrite Hs.
  destruct (leb_not_nan _ _ Hlh) as [Nlo Nhi].
  destruct (get_double p) as [x|] eqn:Hx; simpl; [|discriminate].
  specialize (Hp x Hx).
  destruct (x <? lo)%double eqn:E1; simpl.
  { intros [= <-]. apply within_spec. split; [apply leb_refl|]; assumption. }
  destruct (x >? hi)%double eqn:E2; simpl.
  { intros [= <-]. apply within_spec. split; [|apply leb_refl]; assumption. }
  intros [= <-]. apply within_spec. split; apply not_ltb_leb; assumption.
Qed.

Lemma new_bounds_within node str lo hi cl :
  (lo <=? hi)%double = true ->
  not_nan_parameter (param_min node str) ->
  not_nan_parameter (param_max node str) ->
  new node str (Some lo) (Some hi) = Some cl ->
  exists l u,
    lower cl = Some l /\ upper cl = Some u /\
    within lo hi l = true /\ within lo hi u = true /\
    (l <=? u)%double = true.
Proof.
  intros Hlh Pmin Pmax H.
  destruct (new_inv _ _ _ _ _ H) as (l0 & u0 & Rl & Ru & _ & Hsw).
  pose proof (resolve_lower_within _ _ _ _ Hlh Pmin (is_set_declare _ _ _) Rl)
    as Wl.
  pose proof (resolve_upper_within _ _ _ _ Hlh Pmax (is_set_declare _ _ _) Ru)
    as Wu.
  destruct (proj1 (within_spec _ _ _) Wl) as [Wl1 Wl2].
  destruct (proj1 (within_spec _ _ _) Wu) as [Wu1 Wu2].
  destruct (leb_not_nan _ _ Wl1) as [_ Nl].
  destruct (leb_not_nan _ _ Wu1) as [_ Nu].
  destruct (swap_inverted_cases l0 u0) as [[Hgt E]|[Hgt E]];
    rewrite E in Hsw; injection Hsw as Hl Hu.
  - exists u0, l0. repeat split; try assumption. apply ltb_leb. exact Hgt.
  - exists l0, u0. repeat split; try assumption.
    apply not_ltb_leb; assumption.
Qed.

Lemma clip_within_feasible node str lo hi cl v :
  (lo <=? hi)%double = true ->
  not_nan_parameter (param_min node str) ->
  not_nan_parameter (param_max node str) ->
  new node str (Some lo) (Some hi) = Some cl ->
  is_nan v = false ->
  within lo hi (clip cl v) = true.
Proof.
  intros Hlh Pmin Pmax H Nv.
  destruct (new_bounds_within _ _ _ _ _ Hlh Pmin Pmax H)
    as (l & u & Hl & Hu & Wl & Wu & Hlu).
  destruct (proj1 (within_spec _ _ _) Wl) as [Wl1 Wl2].
  destruct (proj1 (within_spec _ _ _) Wu) as [Wu1 Wu2].
  destruct (leb_not_nan _ _ Hlu) as [Nl Nu].
  unfold clip. rewrite Hl, Hu.
  destruct (v <? l)%double eqn:E1; [exact Wl|].
  destruct (v >? u)%double eqn:E2; [exact Wu|].
  apply within_spec. split.
  - apply (leb_trans _ l); [exact Wl1 | apply not_ltb_leb; assumption].
  - apply (leb_trans _ u); [apply not_ltb_leb; assumption | exact Wu2].
Qed.

(** X4: when a channel has feasible bounds [lo <= hi] and neither of its
    two parameters is NaN, both bounds of the constructed limit lie in
    [lo, hi], whatever the overrides, and so does the result of clipping
    any value other than NaN. *)
Theorem feasible_range_enforced node str lo hi cl v :
  (lo <=? hi)%double = true ->
  not_nan_parameter (param_min node str) ->
  not_nan_parameter (param_max node str) ->
  new node str (Some lo) (Some hi) = Some cl ->
  (exists l u,
     lower cl = Some l /\ upper cl = Some u /\
     within lo hi l = true /\ within lo hi u = true) /\
  (is_nan v = false -> within lo hi (clip cl v) = true).
Proof.
  intros Hlh Pmin Pmax H. split.
  - destruct (new_bounds_within _ _ _ _ _ Hlh Pmin Pmax H)
      as (l & u & Hl & Hu & Wl & Wu & _).
    exists l, u. repeat split; assumption.
  - intros Nv. exact (clip_within_feasible _ _ _ _ _ _ Hlh Pmin Pmax H Nv).
Qed.

Lemma feasible_range_enforced_witness :
  within (of_Z (-1)) (of_Z 1)
    (clip {| name := "duty_cycle"; lower := Some (of_Z 1);
             upper := Some (of_Z 1) |} (of_Z 7)) = true.
Proof.
  apply (feasible_range_enforced
           {[ "duty_cycle_min" := OV_double (of_Z 5);
              "duty_cycle_max" := OV_double (of_Z 3) ]} "duty_cycle").
  - reflexivity.
  - intros x. vm_compute. intros [= <-]. reflexivity.
  - intros x. vm_compute. intros [= <-]. reflexivity.
  - vm_compute. reflexivity.
  - reflexivity.
Defined.

(** X2: a pair of overrides that is in order and inside the feasible
    bounds of the channel (where there are any) is taken as it is: the
    limit is constructed with exactly these two bounds. *)
Theorem valid_overrides_kept node str min_lower max_upper x y :
  node !! (str +:+ "_min") = Some (OV_double x) ->
  node !! (str +:+ "_max") = Some (OV_double y) ->
  (forall lo, min_lower = Some lo -> (lo <=? x)%double = true) ->
  (forall hi, max_upper = Some hi -> (y <=? hi)%double = true) ->
  (x <=? y)%double = true ->
  new node str min_lower max_upper
  = Some {| name := str; lower := Some x; upper := Some y |}.
Proof.
  intros Hmin Hmax Hlo Hhi Hxy. unfold new.
  rewrite (param_min_override _ _ _ Hmin), (param_max_override _ _ _ Hmax).
  assert (Bx : below_feasible min_lower x = false).
  { destruct min_lower as [lo|]; [|reflexivity].
    apply leb_not_ltb, Hlo. reflexivity. }
  assert (Ax : above_feasible max_upper x = false).
  { destruct max_upper as [hi|]; [|reflexivity].
    apply leb_not_ltb, (leb_trans _ y); [exact Hxy | apply Hhi; reflexivity]. }
  assert (By : below_feasible min_lower y = false).
  { destruct min_lower as [lo|]; [|reflexivity].
    apply leb_not_ltb, (leb_trans _ x); [apply Hlo; reflexivity | exact Hxy]. }
  assert (Ay : above_feasible max_upper y = false).
  { destruct max_upper as [hi|]; [|reflexivity].
    apply leb_not_ltb, Hhi. reflexivity. }
  unfold resolve_lower, resolve_upper, below_feasible, above_feasible in *.
  destruct min_lower as [lo|], max_upper as [hi|]; simpl in *;
    rewrite ?Bx, ?Ax, ?By, ?Ay; simpl;
    unfold swap_inverted; rewrite gtb_ltb, (leb_not_ltb _ _ Hxy);
    reflexivity.
Qed.

Lemma valid_overrides_kept_witness :
  new servo_narrowed "servo" (Some (of_Z 0)) (Some (of_Z 1))
  = Some {| name := "servo"; lower := Some (of_ratio 2 10);
            upper := Some (of_ratio 8 10) |}.
Proof.
  apply valid_overrides_kept.
  - vm_compute. reflexivity.
  - vm_compute. reflexivity.
  - intros lo [= <-]. vm_compute. reflexivity.
  - intros hi [= <-]. vm_compute. reflexivity.
  - vm_compute. reflexivity.
Defined.

(** X3: when only the minimum of a channel is overridden, by a positive
    value inside the feasible bounds, the maximum holds its default 0.0,
    the resolved pair is inverted and is exchanged: the limit is
    constructed with the lower bound 0.0 and the configured minimum as
    its upper bound. *)
Theorem lone_minimum_becomes_upper node str min_lower max_upper x :
  node !! (str +:+ "_min") = Some (OV_double x) ->
  node !! (str +:+ "_max") = None ->
  (zero <? x)%double = true ->
  (forall lo, min_lower = Some lo -> (lo <=? zero)%double = true) ->
  (forall hi, max_upper = Some hi -> (x <=? hi)%double = true) ->
  new node str min_lower max_upper
  = Some {| name := str; lower := Some zero; upper := Some x |}.
Proof.
  intros Hmin Hmax Hpos Hlo Hhi. unfold new.
  rewrite (param_min_override _ _ _ Hmin), (param_max_default _ _ Hmax).
  pose proof (ltb_leb _ _ Hpos) as Hzx.
  assert (Bx : below_feasible min_lower x = false).
  { destruct min_lower as [lo|]; [|reflexivity].
    apply leb_not_ltb, (leb_trans _ zero); [apply Hlo; reflexivity|exact Hzx]. }
  assert (Ax : above_feasible max_upper x = false).
  { destruct max_upper as [hi|]; [|reflexivity].
    apply leb_not_ltb, Hhi. reflexivity. }
  assert (Bz : below_feasible min_lower zero = false).
  { destruct min_lower as [lo|]; [|reflexivity].
    apply leb_not_ltb, Hlo. reflexivity. }
  assert (Az : above_feasible max_upper zero = false).
  { destruct max_upper as [hi|]; [|reflexivity].
    apply leb_not_ltb, (leb_trans _ x); [exact Hzx | apply Hhi; reflexivity]. }
  unfold resolve_lower, resolve_upper, below_feasible, above_feasible in *.
  destruct min_lower as [lo|], max_upper as [hi|]; simpl in *;
    rewrite ?Bx, ?Ax, ?Bz, ?Az; simpl;
    unfold swap_inverted; rewrite gtb_ltb, Hpos; reflexivity.
Qed.

Lemma lone_minimum_becomes_upper_witness :
  new servo_lone_min "servo" (Some (of_Z 0)) (Some (of_Z 1))
  = Some {| name := "servo"; lower := Some zero;
            upper := Some (of_ratio 2 10) |}.
Proof.
  apply lone_minimum_becomes_upper.
  - vm_compute. reflexivity.
  - vm_compute. reflexivity.
  - vm_compute. reflexivity.
  - intros lo [= <-]. vm_compute. reflexivity.
  - intros hi [= <-]. vm_compute. reflexivity.
Defined.

End Limits.

(** ** Clipping and the order *)

Section ClipOrder.

Import CommandLimit.

(** X5: a value that is not below the lower bound and not above the upper
    bound, as far as these are set, is returned unchanged. *)
Theorem clip_within_unchanged (cl : t) (v : double) :
  (forall lo, lower cl = Some lo -> (lo <=? v)%double = true) ->
  (forall hi, upper cl = Some hi -> (v <=? hi)%double = true) ->
  clip cl v = v.
Proof.
  intros Hlo Hhi. unfold clip.
  destruct (lower cl) as [lo|], (upper cl) as [hi|];
    rewrite ?gtb_ltb, ?(leb_not_ltb _ _ (Hlo _ eq_refl)),
      ?(leb_not_ltb _ _ (Hhi _ eq_refl));
    reflexivity.
Qed.

Lemma clip_within_unchanged_witness :
  clip {| name := "servo"; lower := Some (of_ratio 2 10);
          upper := Some (of_ratio 8 10) |} (of_ratio 1 2)
  = of_ratio 1 2.
Proof.
  apply clip_within_unchanged.
  - intros lo [= <-]. vm_compute. reflexivity.
  - intros hi [= <-]. vm_compute. reflexivity.
Defined.

(** X6: clipping by a constructed limit whose bounds are not NaN is
    monotone: [v <= w] implies [clip v <= clip w]. *)
Theorem clip_monotone node str min_lower max_upper cl v w :
  new node str min_lower max_upper = Some cl ->
  (forall l, lower cl = Some l -> is_nan l = false) ->
  (forall u, upper cl = Some u -> is_nan u = false) ->
  (v <=? w)%double = true ->
  (clip cl v <=? clip cl w)%double = true.
Proof.
  intros H Nl Nu Hvw.
  destruct (new_bounds _ _ _ _ _ H) as (l & u & Hl & Hu & Hlu).
  specialize (Nl l Hl). specialize (Nu u Hu).
  destruct (leb_not_nan _ _ Hvw) as [Nv Nw].
  assert (Llu : (l <=? u)%double = true) by (apply not_ltb_leb; assumption).
  unfold clip. rewrite Hl, Hu. rewrite !gtb_ltb.
  destruct (v <? l)%double eqn:V1.
  - destruct (w <? l)%double eqn:W1; [apply leb_refl; assumption|].
    destruct (u <? w)%double eqn:W2; [exact Llu|].
    apply not_ltb_leb; assumption.
  - assert (Llv : (l <=? v)%double = true) by (apply not_ltb_leb; assumption).
    assert (W1 : (w <? l)%double = false).
    { apply leb_not_ltb, (leb_trans _ v); assumption. }
    rewrite W1.
    destruct (u <? v)%double eqn:V2.
    + rewrite (ltb_leb_trans _ _ _ V2 Hvw). apply leb_refl. exact Nu.
    + destruct (u <? w)%double eqn:W2; [|exact Hvw].
      apply not_ltb_leb; assumption.
Qed.

Lemma clip_monotone_witness :
  (clip duty_cycle_unconfigured (of_Z (-3))
     <=? clip duty_cycle_unconfigured (of_Z 4))%double = true.
Proof.
  apply (clip_monotone ∅ "duty_cycle" (Some (of_Z (-1))) (Some (of_Z 1))).
  - vm_compute. reflexivity.
  - intros l [= <-]. reflexivity.
  - intros u [= <-]. reflexivity.
  - vm_compute. reflexivity.
Defined.

End ClipOrder.

(** ** Traces of runs *)

Section Traces.

Lemma exec_timerCallback d :
  exec timerCallback d
  = match driver_mode_ d with
    | MODE_INITIALIZING =>
        if state_msg_received_ d then set_driver_mode MODE_OPERATING d else d
    | MODE_OPERATING => d
    end.
Proof.
  unfold timerCallback, exec, mbind, Action_bind, read, modify, mret,
    Action_ret.
  destruct (driver_mode_ d); simpl; [|reflexivity].
  destruct (state_msg_received_ d); reflexivity.
Qed.

Lemma exec_VescStateUpdatedCallback now msg d :
  exists m,
    copied_from (now, msg) m /\
    exec (VescStateUpdatedCallback now msg) d
    = add_state_pub m
        (if state_msg_received_ d then d else set_state_msg_received true d).
Proof.
  eexists. split; [|].
  2: { unfold VescStateUpdatedCallback, exec, mbind, Action_bind, read,
         modify, mret, Action_ret.
       destruct (state_msg_received_ d); reflexivity. }
  repeat split.
Qed.

(** No callback touches a limit. *)
Lemma dispatch_limit e ch d :
  limit_of ch (exec (dispatch e) d) = limit_of ch d.
Proof.
  destruct e as [|ch' v|now msg]; simpl.
  - rewrite exec_timerCallback.
    destruct (driver_mode_ d), (state_msg_received_ d), ch; reflexivity.
  - destruct ch', ch; reflexivity.
  - destruct (exec_VescStateUpdatedCallback now msg d) as (m & _ & ->).
    destruct (state_msg_received_ d), ch; reflexivity.
Qed.

Lemma run_limit es : forall ch d, limit_of ch (run es d) = limit_of ch d.
Proof.
  induction es as [|e es IH]; intros ch d; [reflexivity|].
  rewrite run_cons, IH. apply dispatch_limit.
Qed.

Lemma forwarded_limits d d' c :
  (forall ch, limit_of ch d' = limit_of ch d) ->
  forwarded d' c = forwarded d c.
Proof. intros H. unfold forwarded. rewrite H. reflexivity. Qed.

Lemma dispatch_vesc e d :
  vesc_ (exec (dispatch e) d) = vesc_ d ++ map (forwarded d) (commands_of [e]).
Proof.
  destruct e as [|ch v|now msg]; simpl.
  - rewrite exec_timerCallback, app_nil_r.
    destruct (driver_mode_ d), (state_msg_received_ d); reflexivity.
  - apply commandCallback_vesc.
  - destruct (exec_VescStateUpdatedCallback now msg d) as (m & _ & ->).
    rewrite app_nil_r. destruct (state_msg_received_ d); reflexivity.
Qed.

Lemma commands_of_cons e es :
  commands_of (e :: es) = commands_of [e] ++ commands_of es.
Proof. unfold commands_of. simpl. rewrite app_nil_r. reflexivity. Qed.

Lemma run_vesc es : forall d,
  vesc_ (run es d) = vesc_ d ++ map (forwarded d) (commands_of es).
Proof.
  induction es as [|e es IH]; intros d.
  - simpl. rewrite app_nil_r. reflexivity.
  - rewrite run_cons, IH, dispatch_vesc.
    rewrite (commands_of_cons e es), map_app, <- app_assoc.
    f_equal. f_equal. apply map_ext. intros c.
    apply forwarded_limits. intros ch. apply dispatch_limit.
Qed.

(** X7: in a run, every command is forwarded to the VESC interface, in
    order of arrival and clipped by the limit its channel had at the
    start; timer ticks and state messages make no call; and no callback
    ever changes a limit. *)
Theorem run_forwards_commands es d :
  vesc_ (run es d) = vesc_ d ++ map (forwarded d) (commands_of es) /\
  forall ch, limit_of ch (run es d) = limit_of ch d.
Proof. split; [apply run_vesc | intros ch; apply run_limit]. Qed.

End Traces.

(** ** Published messages *)

Section Published.

Lemma state_events_of_cons e es :
  state_events_of (e :: es) = state_events_of [e] ++ state_events_of es.
Proof. unfold state_events_of. simpl. rewrite app_nil_r. reflexivity. Qed.

Lemma dispatch_state_pub e d :
  exists ms,
    state_pub_ (exec (dispatch e) d) = state_pub_ d ++ ms /\
    Forall2 copied_from (state_events_of [e]) ms.
Proof.
  destruct e as [|ch v|now msg]; simpl.
  - exists []. rewrite exec_timerCallback, app_nil_r. split; [|constructor].
    destruct (driver_mode_ d), (state_msg_received_ d); reflexivity.
  - exists []. rewrite app_nil_r. split; [|constructor].
    destruct ch; reflexivity.
  - destruct (exec_VescStateUpdatedCallback now msg d) as (m & Hm & ->).
    exists [m]. split.
    + destruct (state_msg_received_ d); reflexivity.
    + constructor; [exact Hm | constructor].
Qed.

(** X8: in a run, the state messages published are, in order, one for each
    state message received, stamped with the time of its arrival and with
    the measured fields copied unchanged; commands and timer ticks publish
    no state message. *)
Theorem run_publishes_states es : forall d,
  exists ms,
    state_pub_ (run es d) = state_pub_ d ++ ms /\
    Forall2 copied_from (state_events_of es) ms.
Proof.
  induction es as [|e es IH]; intros d.
  - exists []. simpl. rewrite app_nil_r. split; [reflexivity | constructor].
  - rewrite run_cons.
    destruct (dispatch_state_pub e d) as (ms1 & E1 & F1).
    destruct (IH (exec (dispatch e) d)) as (ms2 & E2 & F2).
    exists (ms1 ++ ms2). split.
    + rewrite E2, E1, <- app_assoc. reflexivity.
    + rewrite state_events_of_cons. apply Forall2_app; assumption.
Qed.

Lemma servo_values_app cs1 cs2 :
  servo_values (cs1 ++ cs2) = servo_values cs1 ++ servo_values cs2.
Proof. unfold servo_values. apply flat_map_app. Qed.

Lemma dispatch_servo_sensor e d :
  servo_sensor_pub_ (exec (dispatch e) d)
  = servo_sensor_pub_ d
    ++ servo_values (map (forwarded d) (commands_of [e])).
Proof.
  destruct e as [|ch v|now msg]; simpl.
  - rewrite exec_timerCallback, app_nil_r.
    destruct (driver_mode_ d), (state_msg_received_ d); reflexivity.
  - destruct ch; simpl; rewrite ?app_nil_r; reflexivity.
  - destruct (exec_VescStateUpdatedCallback now msg d) as (m & _ & ->).
    rewrite app_nil_r. destruct (state_msg_received_ d); reflexivity.
Qed.

Lemma run_servo_sensor es : forall d,
  servo_sensor_pub_ (run es d)
  = servo_sensor_pub_ d ++ servo_values (map (forwarded d) (commands_of es)).
Proof.
  induction es as [|e es IH]; intros d.
  - simpl. rewrite app_nil_r. reflexivity.
  - rewrite run_cons, IH, dispatch_servo_sensor.
    rewrite (commands_of_cons e es), map_app, servo_values_app, <- app_assoc.
    f_equal. f_equal. f_equal. apply map_ext. intros c.
    apply forwarded_limits. intros ch. apply dispatch_limit.
Qed.

(** What the constructor returns when the driver runs. *)
Lemma new_running_inv node connect_ok d0 :
  VescCanDriver_new node connect_ok = Some (Running d0) ->
  (forall ch,
     CommandLimit.new node (channel_name ch)
       (fst (feasible ch)) (snd (feasible ch))
     = Some (limit_of ch d0)) /\
  driver_mode_ d0 = MODE_INITIALIZING /\
  state_msg_received_ d0 = false /\
  vesc_ d0 = [] /\ state_pub_ d0 = [] /\ servo_sensor_pub_ d0 = [].
Proof.
  unfold VescCanDriver_new. intros H.
  destruct (CommandLimit.new node "duty_cycle" _ _) as [l1|] eqn:E1;
    [|discriminate].
  destruct (CommandLimit.new node "current" _ _) as [l2|] eqn:E2;
    [|discriminate].
  destruct (CommandLimit.new node "brake" _ _) as [l3|] eqn:E3;
    [|discriminate].
  destruct (CommandLimit.new node "speed" _ _) as [l4|] eqn:E4;
    [|discriminate].
  destruct (CommandLimit.new node "position" _ _) as [l5|] eqn:E5;
    [|discriminate].
  destruct (CommandLimit.new node "servo" _ _) as [l6|] eqn:E6;
    [|discriminate].
  simpl in H.
  destruct (get_string _) as [port|]; [|discriminate].
  destruct (get_uint8 _) as [id|]; [|discriminate].
  simpl in H. destruct (connect_ok port id); [|discriminate].
  injection H as <-. split; [|repeat split].
  intros []; simpl; assumption.
Qed.

(** X9: on a running driver, the values published as servo position are
    exactly the values of the [SetServo] calls made on the VESC interface,
    in the same order: what is reported is what was sent, after
    clipping. *)
Theorem servo_sensor_mirrors_vesc node connect_ok d0 es :
  VescCanDriver_new node connect_ok = Some (Running d0) ->
  servo_sensor_pub_ (run es d0) = servo_values (vesc_ (run es d0)).
Proof.
  intros H.
  destruct (new_running_inv _ _ _ H) as (_ & _ & _ & Hv & _ & Hs).
  rewrite run_servo_sensor, Hs.
  rewrite run_vesc, Hv. reflexivity.
Qed.

Lemma servo_sensor_mirrors_vesc_witness :
  servo_sensor_pub_
    (run [EvCommand ChServo (of_Z 3); EvTimer; EvCommand ChSpeed (of_Z 9);
          EvCommand ChServo (of_ratio 1 2)] unconfigured_driver)
  = servo_values
      (vesc_
         (run [EvCommand ChServo (of_Z 3); EvTimer; EvCommand ChSpeed (of_Z 9);
               EvCommand ChServo (of_ratio 1 2)] unconfigured_driver)).
Proof.
  apply (servo_sensor_mirrors_vesc ∅ always_connects).
  vm_compute. reflexivity.
Defined.

End Published.

(** ** Start-up *)

Section Startup.

Lemma get_string_typed node :
  is_Some (get_string (declare_parameter node "port" (PV_string "can0"))) <->
  string_or_absent (node !! "port").
Proof.
  unfold declare_parameter, string_or_absent.
  destruct (node !! "port") as [[]|]; simpl; split;
    try tauto; try (intros [? [=]]); try (intros _; eauto).
Qed.

Lemma get_uint8_typed node :
  is_Some (get_uint8 (declare_parameter node "vesc_id" (PV_integer 0x68))) <->
  integer_or_absent (node !! "vesc_id").
Proof.
  unfold declare_parameter, integer_or_absent.
  destruct (node !! "vesc_id") as [[]|]; simpl; split;
    try tauto; try (intros [? [=]]); try (intros _; eauto).
Qed.

Lemma new_typed node ch :
  limit_parameters_typed node ch ->
  exists cl,
    CommandLimit.new node (channel_name ch)
      (fst (feasible ch)) (snd (feasible ch)) = Some cl.
Proof. intros [Hmin Hmax]. apply new_total; assumption. Qed.

(** X10: the constructor of the driver returns normally exactly when every
    override it reads has the type it is read with (a double for the
    twelve limits, a string for the port, an integer for the VESC id).
    It then calls [Connect] with the port and id read: if that fails the
    node is shut down and no driver runs, otherwise the driver runs, in
    mode INITIALIZING, with nothing sent or published yet and each limit
    constructed for its channel with its feasible bounds. *)
Theorem startup_outcome node connect_ok :
  (is_Some (VescCanDriver_new node connect_ok) <-> parameters_typed node) /\
  (parameters_typed node ->
   exists port id,
     get_string (declare_parameter node "port" (PV_string "can0"))
     = Some port /\
     get_uint8 (declare_parameter node "vesc_id" (PV_integer 0x68))
     = Some id /\
     if connect_ok port id
     then exists d0,
            VescCanDriver_new node connect_ok = Some (Running d0) /\
            driver_mode_ d0 = MODE_INITIALIZING /\
            state_msg_received_ d0 = false /\
            vesc_ d0 = [] /\ state_pub_ d0 = [] /\
            servo_sensor_pub_ d0 = [] /\
            forall ch,
              CommandLimit.new node (channel_name ch)
                (fst (feasible ch)) (snd (feasible ch))
              = Some (limit_of ch d0)
     else VescCanDriver_new node connect_ok = Some Shutdown).
Proof.
  assert (Hback : parameters_typed node ->
    exists port id,
     get_string (declare_parameter node "port" (PV_string "can0"))
     = Some port /\
     get_uint8 (declare_parameter node "vesc_id" (PV_integer 0x68))
     = Some id /\
     if connect_ok port id
     then exists d0,
            VescCanDriver_new node connect_ok = Some (Running d0) /\
            driver_mode_ d0 = MODE_INITIALIZING /\
            state_msg_received_ d0 = false /\
            vesc_ d0 = [] /\ state_pub_ d0 = [] /\
            servo_sensor_pub_ d0 = [] /\
            forall ch,
              CommandLimit.new node (channel_name ch)
                (fst (feasible ch)) (snd (feasible ch))
              = Some (limit_of ch d0)
     else VescCanDriver_new node connect_ok = Some Shutdown).
  { intros (Hl & Hp & Hi).
    destruct (proj2 (get_string_typed node) Hp) as [port Eport].
    destruct (proj2 (get_uint8_typed node) Hi) as [id Eid].
    exists port, id. split; [exact Eport|]. split; [exact Eid|].
    destruct (new_typed node ChDutyCycle (Hl _)) as [l1 E1].
    destruct (new_typed node ChCurrent (Hl _)) as [l2 E2].
    destruct (new_typed node ChBrake (Hl _)) as [l3 E3].
    destruct (new_typed node ChSpeed (Hl _)) as [l4 E4].
    destruct (new_typed node ChPosition (Hl _)) as [l5 E5].
    destruct (new_typed node ChServo (Hl _)) as [l6 E6].
    cbn [channel_name feasible fst snd] in E1, E2, E3, E4, E5, E6.
    unfold VescCanDriver_new.
    rewrite E1, E2, E3, E4, E5, E6. simpl. rewrite Eport, Eid. simpl.
    destruct (connect_ok port id); [|reflexivity].
    eexists. split; [reflexivity|]. repeat split.
    intros []; simpl; assumption. }
  split; [|exact Hback]. split.
  - intros [r H]. unfold VescCanDriver_new in H.
    destruct (CommandLimit.new node "duty_cycle" _ _) as [l1|] eqn:E1;
      [|discriminate].
    destruct (CommandLimit.new node "current" _ _) as [l2|] eqn:E2;
      [|discriminate].
    destruct (CommandLimit.new node "brake" _ _) as [l3|] eqn:E3;
      [|discriminate].
    destruct (CommandLimit.new node "speed" _ _) as [l4|] eqn:E4;
      [|discriminate].
    destruct (CommandLimit.new node "position" _ _) as [l5|] eqn:E5;
      [|discriminate].
    destruct (CommandLimit.new node "servo" _ _) as [l6|] eqn:E6;
      [|discriminate].
    simpl in H.
    destruct (get_string _) as [port|] eqn:Eport; [|discriminate].
    destruct (get_uint8 _) as [id|] eqn:Eid; [|discriminate].
    split; [|split].
    + intros []; unfold limit_parameters_typed; simpl channel_name;
        eapply new_some_typed; eassumption.
    + apply get_string_typed. rewrite Eport. eauto.
    + apply get_uint8_typed. rewrite Eid. eauto.
  - intros Ht. destruct (Hback Ht) as (port & id & _ & _ & Hc).
    destruct (connect_ok port id).
    + destruct Hc as (d0 & -> & _). eauto.
    + rewrite Hc. eauto.
Qed.

Lemma startup_outcome_witness :
  VescCanDriver_new servo_narrowed never_connects = Some Shutdown.
Proof.
  destruct (startup_outcome servo_narrowed never_connects) as [_ H].
  destruct H as (port & id & _ & _ & Hc).
  - split; [|split; vm_compute; exact I].
    intros []; split; vm_compute; exact I.
  - exact Hc.
Defined.

End Startup.

(** ** What reaches the VESC *)

Section Sent.

Lemma call_channel_of ch x : call_channel (vesc_call_of ch x) = ch.
Proof. destruct ch; reflexivity. Qed.

Lemma forwarded_in_feasible_range node connect_ok d0 c :
  VescCanDriver_new node connect_ok = Some (Running d0) ->
  (forall ch,
     not_nan_parameter (CommandLimit.param_min node (channel_name ch)) /\
     not_nan_parameter (CommandLimit.param_max node (channel_name ch))) ->
  is_nan (snd c) = false ->
  call_in_feasible_range (forwarded d0 c).
Proof.
  intros H Hp Nv.
  destruct (new_running_inv _ _ _ H) as (Hl & _).
  destruct c as [ch v]. unfold call_in_feasible_range, forwarded.
  rewrite call_channel_of. simpl fst. simpl snd in *.
  specialize (Hl ch). destruct (Hp ch) as [Pmin Pmax].
  destruct ch; try exact I; cbn [feasible channel_name fst snd] in *;
    cbn [vesc_call_of call_value];
    eapply clip_within_feasible; try eassumption; reflexivity.
Qed.

(** X11: on a running driver none of whose limit parameters is NaN, every
    duty cycle sent to the VESC lies in [-1, 1] and every servo position
    sent lies in [0, 1], whatever the overrides and whatever the commands,
    as long as no command is NaN. *)
Theorem sent_within_feasible_range node connect_ok d0 es :
  VescCanDriver_new node connect_ok = Some (Running d0) ->
  (forall ch,
     not_nan_parameter (CommandLimit.param_min node (channel_name ch)) /\
     not_nan_parameter (CommandLimit.param_max node (channel_name ch))) ->
  Forall (λ c, is_nan (snd c) = false) (commands_of es) ->
  Forall call_in_feasible_range (vesc_ (run es d0)).
Proof.
  intros H Hp Hes.
  destruct (new_running_inv _ _ _ H) as (_ & _ & _ & Hv & _).
  rewrite run_vesc, Hv. simpl. apply Forall_map.
  eapply Forall_impl; [exact Hes|].
  intros c Nc. exact (forwarded_in_feasible_range _ _ _ _ H Hp Nc).
Qed.

Lemma sent_within_feasible_range_witness :
  Forall call_in_feasible_range
    (vesc_ (run [EvCommand ChServo (of_Z 3); EvState 0 sample_state;
                 EvCommand ChDutyCycle (of_Z (-7)); EvTimer;
                 EvCommand ChServo (of_ratio 1 2)] servo_narrowed_driver)).
Proof.
  apply (sent_within_feasible_range servo_narrowed always_connects).
  - vm_compute. reflexivity.
  - intros []; split; intros x; vm_compute; intros [= <-]; reflexivity.
  - vm_compute. repeat constructor.
Defined.

Lemma new_unconfigured_any node str min_lower max_upper :
  node !! (str +:+ "_min") = None ->
  node !! (str +:+ "_max") = None ->
  CommandLimit.below_feasible min_lower zero = false ->
  CommandLimit.above_feasible max_upper zero = false ->
  CommandLimit.new node str min_lower max_upper
  = Some (unconfigured_limit str).
Proof.
  intros Hmin Hmax Hb Ha. unfold CommandLimit.new.
  rewrite (param_min_default _ _ Hmin), (param_max_default _ _ Hmax).
  unfold CommandLimit.resolve_lower, CommandLimit.resolve_upper,
    CommandLimit.below_feasible, CommandLimit.above_feasible in *.
  destruct min_lower as [lo|], max_upper as [hi|]; simpl in *;
    rewrite ?Hb, ?Ha; reflexivity.
Qed.

Lemma zero_in_degrees z :
  (z ==? zero)%double = true ->
  (z * of_Z 180 / M_PI ==? zero)%double = true.
Proof.
  destruct z as [s|s| |s m e]; try discriminate;
    destruct s; try discriminate; intros _; reflexivity.
Qed.

Lemma forwarded_unconfigured d c :
  (forall ch, limit_of ch d = unconfigured_limit (channel_name ch)) ->
  is_nan (snd c) = false ->
  (call_value (forwarded d c) ==? zero)%double = true.
Proof.
  intros Hl Nv. destruct c as [ch v]. unfold forwarded. simpl fst. simpl snd in *.
  rewrite Hl.
  pose proof (clip_zero_bounds (channel_name ch) v Nv) as Hz.
  fold (unconfigured_limit (channel_name ch)) in Hz.
  destruct ch; cbn [vesc_call_of call_value]; try exact Hz.
  apply zero_in_degrees, Hz.
Qed.

(** X12: on a running driver for which no limit parameter is overridden,
    every limit is [0.0, 0.0], and every command other than NaN, on every
    channel, reaches the VESC as a zero. *)
Theorem unconfigured_driver_sends_zero node connect_ok d0 es :
  VescCanDriver_new node connect_ok = Some (Running d0) ->
  (forall ch,
     node !! (channel_name ch +:+ "_min") = None /\
     node !! (channel_name ch +:+ "_max") = None) ->
  (forall ch, limit_of ch d0 = unconfigured_limit (channel_name ch)) /\
  (Forall (λ c, is_nan (snd c) = false) (commands_of es) ->
   Forall (λ c, (call_value c ==? zero)%double = true) (vesc_ (run es d0))).
Proof.
  intros H Hn.
  destruct (new_running_inv _ _ _ H) as (Hl & _ & _ & Hv & _).
  assert (Hu : forall ch, limit_of ch d0 = unconfigured_limit (channel_name ch)).
  { intros ch. specialize (Hl ch). destruct (Hn ch) as [Hmin Hmax].
    rewrite (new_unconfigured_any _ _ _ _ Hmin Hmax) in Hl.
    - injection Hl as <-. reflexivity.
    - destruct ch; reflexivity.
    - destruct ch; reflexivity. }
  split; [exact Hu|]. intros Hes.
  rewrite run_vesc, Hv. simpl. apply Forall_map.
  eapply Forall_impl; [exact Hes|].
  intros c Nc. exact (forwarded_unconfigured _ _ Hu Nc).
Qed.

Lemma unconfigured_driver_sends_zero_witness :
  Forall (λ c, (call_value c ==? zero)%double = true)
    (vesc_ (run [EvCommand ChSpeed (of_Z 3000); EvTimer;
                 EvCommand ChPosition (M_PI / of_Z 2)%double;
                 EvCommand ChDutyCycle (of_ratio 1 2)] unconfigured_driver)).
Proof.
  destruct (unconfigured_driver_sends_zero ∅ always_connects
              unconfigured_driver
              [EvCommand ChSpeed (of_Z 3000); EvTimer;
               EvCommand ChPosition (M_PI / of_Z 2)%double;
               EvCommand ChDutyCycle (of_ratio 1 2)]) as [_ Hz].
  - vm_compute. reflexivity.
  - intros []; split; vm_compute; reflexivity.
  - apply Hz. vm_compute. repeat constructor.
Defined.

End Sent.

(** ** When the driver operates *)

Section Operating.

Lemma operating_from_initializing es : forall d,
  driver_mode_ d = MODE_INITIALIZING ->
  (driver_mode_ (run es d) = MODE_OPERATING <->
   commands_of es <> [] \/
   exists es1 es2,
     es = es1 ++ EvTimer :: es2 /\
     (state_msg_received_ d = true \/ state_events_of es1 <> [])).
Proof.
  induction es as [|e es IH]; intros d Hm.
  - simpl. split.
    + intros H. rewrite Hm in H. discriminate.
    + intros [H|(es1 & es2 & H & _)]; [contradiction H; reflexivity|].
      destruct es1; discriminate.
  - rewrite run_cons. destruct e as [|ch v|now msg].
    + simpl dispatch. rewrite exec_timerCallback, Hm.
      destruct (state_msg_received_ d) eqn:Hr.
      * split; [|intros _; apply run_operating; reflexivity].
        intros _. right. exists [], es. split; [reflexivity | left; reflexivity].
      * rewrite (IH d Hm), Hr. change (commands_of (EvTimer :: es))
          with (commands_of es). split.
        -- intros [H|(es1 & es2 & -> & [H|H])]; [left; exact H|discriminate|].
           right. exists (EvTimer :: es1), es2. split; [reflexivity|].
           right. exact H.
        -- intros [H|(es1 & es2 & E & [H|H])]; [left; exact H|discriminate|].
           destruct es1 as [|e1 es1]; [contradiction H; reflexivity|].
           injection E as <- ->. right. exists es1, es2.
           split; [reflexivity|]. right. exact H.
    + split; [intros _; left; discriminate|]. intros _.
      apply run_operating. simpl. apply commandCallback_mode.
    + simpl dispatch.
      rewrite (IH (exec (VescStateUpdatedCallback now msg) d))
        by (rewrite VescStateUpdatedCallback_mode; exact Hm).
      rewrite VescStateUpdatedCallback_received.
      change (commands_of (EvState now msg :: es)) with (commands_of es).
      split.
      * intros [H|(es1 & es2 & -> & _)]; [left; exact H|].
        right. exists (EvState now msg :: es1), es2.
        split; [reflexivity|]. right. discriminate.
      * intros [H|(es1 & es2 & E & _)]; [left; exact H|].
        destruct es1 as [|e1 es1]; [discriminate|].
        injection E as <- ->. right. exists es1, es2.
        split; [reflexivity | left; reflexivity].
Qed.

(** X13: after a run, a driver is in mode OPERATING exactly when the run
    contains a command, or a timer tick that comes after a state
    message. *)
Theorem operating_iff node connect_ok d0 es :
  VescCanDriver_new node connect_ok = Some (Running d0) ->
  (driver_mode_ (run es d0) = MODE_OPERATING <->
   commands_of es <> [] \/
   exists es1 es2,
     es = es1 ++ EvTimer :: es2 /\ state_events_of es1 <> []).
Proof.
  intros H.
  destruct (new_running_inv _ _ _ H) as (_ & Hm & Hr & _).
  rewrite (operating_from_initializing es d0 Hm), Hr.
  split; intros [Hc|(es1 & es2 & E & Hs)]; auto; right; exists es1, es2;
    (split; [exact E|]).
  - destruct Hs as [Hs|Hs]; [discriminate | exact Hs].
  - right. exact Hs.
Qed.

Lemma operating_iff_witness :
  driver_mode_
    (run [EvTimer; EvState 0 sample_state; EvTimer] unconfigured_driver)
  = MODE_OPERATING /\
  driver_mode_ (run [EvState 0 sample_state] unconfigured_driver)
  <> MODE_OPERATING.
Proof.
  split.
  - apply (operating_iff ∅ always_connects); [vm_compute; reflexivity|].
    right. exists [EvTimer; EvState 0 sample_state], [].
    split; [reflexivity | discriminate].
  - intros Hop.
    apply (operating_iff ∅ always_connects) in Hop; [|vm_compute; reflexivity].
    destruct Hop as [Hc|(es1 & es2 & E & _)].
    + apply Hc. reflexivity.
    + destruct es1 as [|e1 [|e2 es1]]; discriminate.
Defined.

End Operating.
